(** * Blauberg fan protocol client: codec and framing

    A shallow embedding of [custom_components/blaueberg/blauberg_protocol.py]
    (class [BlaubergProtocol]) together with the properties of its checksum,
    its command framing, its outgoing parameter-block encoder and its
    incoming parameter-block decoder.

    Python integers are [Z], [bytes] objects are lists of [Byte.byte],
    [str] objects are lists of Unicode code points, the dictionaries handed
    to and returned by the client are [gmap Z (option Z)] ([None] is the
    Python [None]), and the insertion-ordered dictionary the encoder
    iterates over is an association list.  Exceptions are an explicit
    result type. *)

From Stdlib Require Import ZArith Lia.
From Stdlib Require Import Strings.Byte Strings.Ascii Strings.String.
From stdpp Require Import base option list gmap sorting.

Local Open Scope Z_scope.

(** ** Python results: a value or a raised exception *)

Inductive exn : Type :=
  | IndexError
  | KeyError
  | OverflowError
  | ValueError
  | UnicodeEncodeError.

(** [OutOfFuel] is not a Python outcome: it is what a loop of the model
    answers when the iteration bound it was given is too small.  The
    theorems below show that the bounds used are never too small. *)
Inductive outcome (A : Type) : Type :=
  | Ok (a : A)
  | Raise (e : exn)
  | OutOfFuel.

Arguments Ok {A} a.
Arguments Raise {A} e.
Arguments OutOfFuel {A}.

#[global] Instance outcome_ret : MRet outcome := fun A a => Ok a.
#[global] Instance outcome_bind : MBind outcome := fun A B f m =>
  match m with
  | Ok a => f a
  | Raise e => Raise e
  | OutOfFuel => OutOfFuel
  end.

(** ** Bytes and big-endian integers *)

Abbreviation pybytes := (list Byte.byte).

(** [b[i]] on a [bytes] object gives an [int] in 0..255. *)
Definition byte_int (b : Byte.byte) : Z := Z.of_N (Byte.to_N b).

(** [bytes([n])]; the model only applies it to 0 <= n < 256. *)
Definition int_byte (n : Z) : Byte.byte :=
  default Byte.x00 (Byte.of_N (Z.to_N n)).

(** [raw[i]]: an [IndexError] outside the object. *)
Definition getitem {A} (l : list A) (i : nat) : outcome A :=
  match l !! i with
  | Some x => Ok x
  | None => Raise IndexError
  end.

(** [l[-k]] for k > 0: an [IndexError] when [l] has fewer than [k] items. *)
Definition getitem_from_end {A} (l : list A) (k : nat) : outcome A :=
  if (length l <? k)%nat then Raise IndexError else getitem l (length l - k).

(** [raw[i:j]] for 0 <= i: slices never raise, they clip. *)
Definition slice {A} (l : list A) (i j : nat) : list A :=
  take (j - i)%nat (drop i l).

(** The [n] low base-256 digits of [v], most significant first. *)
Fixpoint be_digits (n : nat) (v : Z) : pybytes :=
  match n with
  | O => []
  | S n' => be_digits n' (v / 256) ++ [int_byte (v mod 256)]
  end.

(** [v.to_bytes(n, 'big')] (unsigned): [OverflowError] when [v] is negative
    or does not fit, [ValueError] for a negative length. *)
Definition int_to_bytes (v n : Z) : outcome pybytes :=
  if n <? 0 then Raise ValueError
  else if (0 <=? v) && (v <? 256 ^ n) then Ok (be_digits (Z.to_nat n) v)
  else Raise OverflowError.

(** [int.from_bytes(b, 'big')]. *)
Definition int_from_bytes (b : pybytes) : Z :=
  foldl (fun acc x => acc * 256 + byte_int x) 0 b.

(** [sum(b)] over a [bytes] object. *)
Definition sum_bytes (b : pybytes) : Z :=
  foldr (fun x acc => byte_int x + acc) 0 b.

(** [v.bit_length()]. *)
Definition bit_length (v : Z) : Z :=
  if v =? 0 then 0 else Z.log2 (Z.abs v) + 1.

(** ** Python strings *)

(** A [str] is its sequence of code points; [len] counts code points.  A
    number outside 0..0x10FFFF is not a code point: encoding it is an error
    of the model's caller. *)
Abbreviation str := (list Z).

Definition utf8_char (c : Z) : outcome pybytes :=
  if (c <? 0) || (0x10FFFF <? c) then Raise ValueError
  else if c <? 0x80 then Ok [int_byte c]
  else if c <? 0x800 then
    Ok [int_byte (Z.lor 0xC0 (Z.shiftr c 6)); int_byte (Z.lor 0x80 (Z.land c 0x3F))]
  else if c <? 0x10000 then
    if (0xD800 <=? c) && (c <=? 0xDFFF) then Raise UnicodeEncodeError
    else Ok [int_byte (Z.lor 0xE0 (Z.shiftr c 12));
             int_byte (Z.lor 0x80 (Z.land (Z.shiftr c 6) 0x3F));
             int_byte (Z.lor 0x80 (Z.land c 0x3F))]
  else Ok [int_byte (Z.lor 0xF0 (Z.shiftr c 18));
           int_byte (Z.lor 0x80 (Z.land (Z.shiftr c 12) 0x3F));
           int_byte (Z.lor 0x80 (Z.land (Z.shiftr c 6) 0x3F));
           int_byte (Z.lor 0x80 (Z.land c 0x3F))].

(** [bytes(s, 'utf-8')]. *)
Fixpoint utf8 (s : str) : outcome pybytes :=
  match s with
  | [] => Ok []
  | c :: s' => b ← utf8_char c; r ← utf8 s'; mret (b ++ r)
  end.

(** [int(s, 2)] for a string of binary digits. *)
Fixpoint int_base2 (acc : Z) (s : string) : Z :=
  match s with
  | EmptyString => acc
  | String c s' => int_base2 (2 * acc + (if Ascii.eqb c "1"%char then 1 else 0)) s'
  end.

(** ['c' * n]. *)
Fixpoint str_repeat (c : ascii) (n : nat) : string :=
  match n with
  | O => EmptyString
  | S n' => String c (str_repeat c n')
  end.

(** ** The packet module: fields and frames *)

Module Packet.

(** Modelled from the spec: the module [packet] that [blauberg_protocol]
    imports ([Section], [Section.Template], [ExpandingSection], [Packet])
    is not part of the sources at hand.  Section 3 and 4.1 of the
    specification describe a field as a byte size and an integer value,
    serialised big-endian on exactly [byte_size] bytes; a literal field
    without an explicit size takes the minimum number of bytes that holds
    its value (one byte for 0: the empty password's length field is "the
    single zero pwdLen byte"); a template carries only its size until
    raw bytes are parsed into it; an expanding field produces as many
    bytes as its content requires. *)
Record section : Type := mk_section {
  value : Z;
  byte_size : Z;
  expanding : bool
}.

(** Modelled from the spec: "byte size = minimum bytes needed to hold it". *)
Definition auto_size (v : Z) : Z := Z.max 1 ((bit_length v + 7) / 8).

(** [Section(value)] and [Section(value, byte_size)]. *)
Definition Section (v : Z) (size : option Z) : section :=
  {| value := v; byte_size := default (auto_size v) size; expanding := false |}.

(** [Section.Template(byte_size)], also written [Section(byte_size=n)]. *)
Definition Template (size : Z) : section :=
  {| value := 0; byte_size := size; expanding := false |}.

(** [ExpandingSection()]: no content yet. *)
Definition ExpandingSection : section :=
  {| value := 0; byte_size := 0; expanding := true |}.

(** Modelled from the spec: "parse raw bytes of the field's declared size
    into its value"; the field is updated and returned. *)
Definition set_bytes (s : section) (b : pybytes) : section :=
  {| value := int_from_bytes b; byte_size := byte_size s; expanding := expanding s |}.

(** Modelled from the spec: "Serializes to big-endian bytes of exactly
    byteSize length". *)
Definition to_bytes (s : section) : outcome pybytes :=
  int_to_bytes (value s) (byte_size s).

(** Modelled from the spec: comparing a field with an integer, as
    [__init__] does in [self._id_size == 0], compares its value. *)
Definition eq_int (s : section) (n : Z) : bool := value s =? n.

(** A [Packet] is the ordered list of its fields. *)
Abbreviation packet := (list section).

(** Modelled from the spec: "serialize(Frame) concatenates each field's
    bytes in order". *)
Fixpoint packet_to_bytes (p : packet) : outcome pybytes :=
  match p with
  | [] => Ok []
  | s :: p' => b ← to_bytes s; r ← packet_to_bytes p'; mret (b ++ r)
  end.

(** [Packet.to_int()]: the serialised frame read as one big-endian integer. *)
Definition packet_to_int (p : packet) : outcome Z :=
  b ← packet_to_bytes p; mret (int_from_bytes b).

(** Modelled from the spec: "total serialized length equals the sum of
    constituent field lengths". *)
Definition packet_byte_size (p : packet) : Z :=
  foldr (fun s acc => byte_size s + acc) 0 p.

End Packet.

Import Packet.

(** ** The client: class constants and construction *)

Definition HEADER : section := Section 0xFDFD None.
Definition PROTOCOL_TYPE : section := Section 0x02 None.
Definition CHECKSUM : section := Template 2.
Definition LEAD_INDICATOR : section := Section 0xFF None.
Definition INVALID : section := Section 0xFD None.
Definition DYNAMIC_VAL : section := Section 0xFE None.
Definition BLANK_BYTE : section := ExpandingSection.

Definition DEFAULT_PORT : Z := 4000.
Definition DEFAULT_PWD : str := [49; 49; 49; 49].
Definition DEFAULT_DEVICE_ID : str :=
  [68; 69; 70; 65; 85; 76; 84; 95; 68; 69; 86; 73; 67; 69; 73; 68].

Module FUNC.
Definition Template : section := Packet.Template 1.
Definition R : section := Section 0x01 None.
Definition RW : section := Section 0x03 None.
End FUNC.

(** The attributes of a client.  The receive timeout, a float that only the
    socket sees, is left out. *)
Record BlaubergProtocol : Type := mk_client {
  _host : str;
  _port : Z;
  _password : str;
  _device_id : str;
  _pwd_size : section;
  _id_size : section
}.

(** [BlaubergProtocol.__init__]. *)
Definition __init__ (host : str) (port : Z) (password device_id : str)
  : outcome BlaubergProtocol :=
  let pwd_size := Section (Z.of_nat (length password)) None in
  let id_size := Section (Z.of_nat (length device_id)) None in
  if eq_int id_size 0 then Raise ValueError
  else Ok {| _host := host; _port := port; _password := password;
             _device_id := device_id; _pwd_size := pwd_size;
             _id_size := id_size |}.

(** ** Frames *)

(** [l[i] = x]. *)
Definition setitem {A} (l : list A) (i : nat) (x : A) : outcome (list A) :=
  if (i <? length l)%nat then Ok (<[i:=x]> l) else Raise IndexError.

(** [BlaubergProtocol._protocol]; [protocol.pop(5)] removes the sixth of the
    nine fields. *)
Definition _protocol (self : BlaubergProtocol) : packet :=
  let protocol :=
    [HEADER; PROTOCOL_TYPE; _id_size self; Packet.Template (value (_id_size self));
     _pwd_size self; Packet.Template (value (_pwd_size self)); FUNC.Template;
     ExpandingSection; CHECKSUM] in
  if value (_pwd_size self) =? 0 then delete 5%nat protocol else protocol.

(** [BlaubergProtocol._response]. *)
Definition _response (self : BlaubergProtocol) : packet :=
  [HEADER; PROTOCOL_TYPE; _id_size self; Packet.Template (value (_id_size self));
   _pwd_size self; FUNC.Template; ExpandingSection; CHECKSUM].

(** [BlaubergProtocol._swap_high_low]: in Python the shifts bind tighter
    than [&], and [&] tighter than [|]. *)
Definition _swap_high_low (v : Z) (swap_size : nat) : Z :=
  Z.lor
    (Z.land (Z.shiftl v (Z.of_nat swap_size))
       (int_base2 0 (str_repeat "1" swap_size ++ str_repeat "0" swap_size)))
    (Z.land (Z.shiftr v (Z.of_nat swap_size))
       (int_base2 0 (str_repeat "0" swap_size ++ str_repeat "1" swap_size))).

(** [BlaubergProtocol._checksum]. *)
Definition _checksum (data : packet) : outcome section :=
  b ← packet_to_bytes data;
  let check_sum := sum_bytes b in
  mret (Section (_swap_high_low check_sum 8) (Some 2)).

(** [BlaubergProtocol._command]. *)
Definition _command (self : BlaubergProtocol) (function : section) (data : packet)
  : outcome packet :=
  let index := 3%nat in
  let command := _protocol self in
  field ← getitem command index;
  id_bytes ← utf8 (_device_id self);
  command ← setitem command index (set_bytes field id_bytes);
  let index := S index in
  command ← setitem command index (_pwd_size self);
  '(index, command) ←
    (if negb (value (_pwd_size self) =? 0) then
       let index := S index in
       field ← getitem command index;
       pwd_bytes ← utf8 (_password self);
       command ← setitem command index (set_bytes field pwd_bytes);
       mret (index, command)
     else mret (index, command));
  let index := S index in
  command ← setitem command index function;
  let index := S index in
  data_int ← packet_to_int data;
  command ← setitem command index (Section data_int (Some (packet_byte_size data)));
  let index := S index in
  check ← _checksum (slice command 1 (length command - 1));
  setitem command index check.

(** The checksum a response should carry: [self._checksum(Packet(response[1:-1])).value]. *)
Definition expected_check_sum (response : packet) : outcome Z :=
  check ← _checksum (slice response 1 (length response - 1));
  mret (value check).

(** The checksum a response does carry:
    [self.CHECKSUM.set_bytes(raw_response[-2:]).value]. *)
Definition actual_check_sum (raw_response : pybytes) : Z :=
  value (set_bytes CHECKSUM (drop (length raw_response - 2) raw_response)).

(** Whether [_communicate_block] logs "invalid checksum response". *)
Definition checksum_warning (raw_response : pybytes) (response : packet) : outcome bool :=
  expected ← expected_check_sum response;
  mret (negb (actual_check_sum raw_response =? expected)).

(** [BlaubergProtocol._communicate_block].  The datagram exchange
    [_communicate] (an empty answer on a timeout) and [Packet.decode], which
    is outside the sources at hand, are parameters.  The comparison of the
    two checksums only decides whether a warning is logged; the data field
    is returned either way. *)
Definition _communicate_block
    (communicate : pybytes → pybytes)
    (decode : packet → pybytes → outcome packet)
    (self : BlaubergProtocol) (function : section) (data : packet)
  : outcome section :=
  command ← _command self function data;
  command_bytes ← packet_to_bytes command;
  let raw_response := communicate command_bytes in
  if (length raw_response =? 0)%nat then mret BLANK_BYTE
  else
    response ← decode (_response self) (take (length raw_response - 2) raw_response);
    _ ← checksum_warning raw_response response;
    getitem_from_end response 2.

(** ** Incoming parameter-block decoding *)

(** The local variables of [_decode_data] that live across iterations. *)
Record decoder_state : Type := mk_state {
  values : gmap Z (option Z);
  lead_byte : pybytes;
  index : nat
}.

(** How one iteration of the [while] loop ends: at the loop test again, or
    with the function returning. *)
Inductive control : Type :=
  | Next (st : decoder_state)
  | Return (result : gmap Z (option Z)).

(** [Section.Template(2).set_bytes(lead_byte+tail_byte).value]. *)
Definition param_of (lead_byte tail_byte : pybytes) : Z :=
  value (set_bytes (Packet.Template 2) (lead_byte ++ tail_byte)).

(** The body of the [while] loop of [_decode_data], one branch per kind of
    marker. *)
Definition loop_body (raw_data : pybytes) (st : decoder_state) : outcome control :=
  let values := values st in
  let lead_byte := lead_byte st in
  let index := index st in
  func ← getitem raw_data index;
  if byte_int func =? value LEAD_INDICATOR then
    let index := S index in
    b ← getitem raw_data index;
    let lead_byte := [b] in
    let index := S index in
    mret (Next (mk_state values lead_byte index))
  else if byte_int func =? value INVALID then
    let index := S index in
    b ← getitem raw_data index;
    let tail_byte := [b] in
    let index := S index in
    let param := param_of lead_byte tail_byte in
    let values :=
      match values !! param with
      | None => <[param := None]> values
      | Some _ => values
      end in
    mret (Next (mk_state values lead_byte index))
  else if byte_int func =? value DYNAMIC_VAL then
    let index := S index in
    b ← getitem raw_data index;
    let byte_length := Z.to_nat (byte_int b) in
    let index := S index in
    if (length raw_data <? index + byte_length)%nat then
      mret (Return values)
    else
      b ← getitem raw_data index;
      let tail_byte := [b] in
      let index := S index in
      let param := param_of lead_byte tail_byte in
      let dynamic_part := slice raw_data index (index + byte_length) in
      let value := value (set_bytes (Packet.Template (Z.of_nat byte_length)) dynamic_part) in
      let values := <[param := Some value]> values in
      let index := (index + byte_length)%nat in
      mret (Next (mk_state values lead_byte index))
  else
    b ← getitem raw_data index;
    let tail_byte := [b] in
    let index := S index in
    let param := param_of lead_byte tail_byte in
    b ← getitem raw_data index;
    let value := byte_int b in
    let index := S index in
    let values := <[param := Some value]> values in
    mret (Next (mk_state values lead_byte index)).

(** [while index < len(raw_data): ...; return values], for at most [fuel]
    iterations. *)
Fixpoint while_loop (fuel : nat) (raw_data : pybytes) (st : decoder_state)
  : outcome (gmap Z (option Z)) :=
  if (index st <? length raw_data)%nat then
    match fuel with
    | O => OutOfFuel
    | S fuel' =>
        c ← loop_body raw_data st;
        match c with
        | Next st' => while_loop fuel' raw_data st'
        | Return result => mret result
        end
    end
  else mret (values st).

Definition initial_state : decoder_state := mk_state ∅ [] 0.

(** [BlaubergProtocol._decode_data]: every iteration moves [index] forward,
    so [len(raw_data)] iterations are enough. *)
Definition _decode_data (raw_data : pybytes) : outcome (gmap Z (option Z)) :=
  while_loop (length raw_data) raw_data initial_state.

(** ** Outgoing parameter-block encoding *)

(** [params_by_lead] is an insertion-ordered [dict]: iteration follows the
    order in which the keys were first set. *)
Abbreviation odict := (list (Z * list Z)).

(** [k in d]. *)
Fixpoint dict_in (k : Z) (d : odict) : bool :=
  match d with
  | [] => false
  | (k', _) :: d' => (k' =? k) || dict_in k d'
  end.

(** [d[k]]. *)
Fixpoint dict_get (k : Z) (d : odict) : outcome (list Z) :=
  match d with
  | [] => Raise KeyError
  | (k', v) :: d' => if k' =? k then Ok v else dict_get k d'
  end.

(** [d[k] = v]: an existing key keeps its place, a new one goes last. *)
Fixpoint dict_set (k : Z) (v : list Z) (d : odict) : odict :=
  match d with
  | [] => [(k, v)]
  | (k', v') :: d' => if k' =? k then (k', v) :: d' else (k', v') :: dict_set k v d'
  end.

(** [parameters[param]] on the caller's mapping. *)
Definition mapping_get (parameters : gmap Z (option Z)) (param : Z) : outcome (option Z) :=
  match parameters !! param with
  | Some v => Ok v
  | None => Raise KeyError
  end.

(** [params = list(parameters.keys()); params.sort()]. *)
Definition sorted_params (parameters : gmap Z (option Z)) : list Z :=
  merge_sort Z.le (map_to_list parameters).*1.

(** The first [for] loop of [_construct_command_block]. *)
Fixpoint group_by_lead (params : list Z) (params_by_lead : odict) : outcome odict :=
  match params with
  | [] => Ok params_by_lead
  | param :: params' =>
      raw ← to_bytes (Section param (Some 2));
      lead ← getitem raw 0;
      tail ← getitem raw 1;
      let lead := byte_int lead in
      let tail := byte_int tail in
      let params_by_lead :=
        if negb (dict_in lead params_by_lead) then dict_set lead [] params_by_lead
        else params_by_lead in
      tails ← dict_get lead params_by_lead;
      group_by_lead params' (dict_set lead (tails ++ [tail]) params_by_lead)
  end.

(** The inner [for tail in params_by_lead[lead]] loop. *)
Fixpoint emit_tails (parameters : gmap Z (option Z)) (lead : Z) (tails : list Z)
    (data_packet : packet) : outcome packet :=
  match tails with
  | [] => Ok data_packet
  | tail :: tails' =>
      lead_b ← to_bytes (Section lead None);
      tail_b ← to_bytes (Section tail None);
      let param := value (set_bytes (Packet.Template 2) (lead_b ++ tail_b)) in
      val ← mapping_get parameters param;
      match val with
      | Some val =>
          let value_sec := Section val None in
          emit_tails parameters lead tails'
            (data_packet ++
               [DYNAMIC_VAL; Section (byte_size value_sec) None; Section tail None;
                value_sec])
      | None =>
          emit_tails parameters lead tails' (data_packet ++ [Section tail None])
      end
  end.

(** The outer [for lead in params_by_lead] loop; the tails of a lead are
    looked up by [params_by_lead[lead]], here the second component. *)
Fixpoint emit_groups (parameters : gmap Z (option Z)) (params_by_lead : odict)
    (data_packet : packet) : outcome packet :=
  match params_by_lead with
  | [] => Ok data_packet
  | (lead, tails) :: rest =>
      data_packet ← emit_tails parameters lead tails
                      (data_packet ++ [LEAD_INDICATOR; Section lead None]);
      emit_groups parameters rest data_packet
  end.

(** [BlaubergProtocol._construct_command_block]. *)
Definition _construct_command_block (parameters : gmap Z (option Z)) : outcome packet :=
  let params := sorted_params parameters in
  params_by_lead ← group_by_lead params [];
  emit_groups parameters params_by_lead [].

(** ** The public operations *)

(** [x or 0] for an optional integer. *)
Definition or_0 (x : option Z) : Z :=
  match x with
  | None => 0
  | Some v => if v =? 0 then 0 else v
  end.

Section Operations.

Variable communicate : pybytes → pybytes.
Variable decode : packet → pybytes → outcome packet.
Variable self : BlaubergProtocol.

(** [BlaubergProtocol.read_params]. *)
Definition read_params (parameters : list Z) : outcome (gmap Z (option Z)) :=
  let params := foldl (fun params param => <[param := None]> params) ∅ parameters in
  block ← _construct_command_block params;
  data_response ← _communicate_block communicate decode self FUNC.R block;
  raw_data ← to_bytes data_response;
  _decode_data raw_data.

(** [BlaubergProtocol.read_param]. *)
Definition read_param (param : Z) : outcome Z :=
  params ← read_params [param];
  match params !! param with
  | None => mret 0
  | Some v => mret (or_0 v)
  end.

(** [BlaubergProtocol.write_params]; the values of the mapping handed in
    are integers. *)
Definition write_params (parameters : gmap Z Z) : outcome (gmap Z (option Z)) :=
  block ← _construct_command_block (Some <$> parameters);
  data_response ← _communicate_block communicate decode self FUNC.RW block;
  raw_data ← to_bytes data_response;
  _decode_data raw_data.

(** [BlaubergProtocol.write_param]: the subscript raises [KeyError] for a
    key that is not in the decoded dictionary. *)
Definition write_param (parameter value : Z) : outcome Z :=
  data_response ← _communicate_block communicate decode self FUNC.RW
                    [Section parameter None; Section value None];
  raw_data ← to_bytes data_response;
  decoded ← _decode_data raw_data;
  v ← mapping_get decoded parameter;
  mret (or_0 v).

(** [BlaubergProtocol.device_type]. *)
Definition device_type (type_parameter : Z) : outcome Z :=
  read_param type_parameter.

End Operations.

(** ** Vocabulary of the properties *)

(** Exchange of the low and the high byte of a 16-bit value. *)
Definition byte_swap16 (s : Z) : Z := (s mod 256) * 256 + s / 256.

(** A string all of whose characters are ASCII: its UTF-8 encoding has one
    byte per character. *)
Definition ascii_only (s : str) : Prop := Forall (fun c => 0 <= c < 128) s.

(** ** Sample inputs *)

(** A client for the device id "AB" with an empty password, one with the
    default password, and a one-field data block. *)
Definition sample_client : BlaubergProtocol :=
  {| _host := []; _port := DEFAULT_PORT; _password := []; _device_id := [65; 66];
     _pwd_size := Section 0 None; _id_size := Section 2 None |}.

Definition sample_client_pwd : BlaubergProtocol :=
  {| _host := []; _port := DEFAULT_PORT; _password := DEFAULT_PWD; _device_id := [65; 66];
     _pwd_size := Section 4 None; _id_size := Section 2 None |}.

Definition sample_data : packet := [Section 5 None].

(** A parsed response: header, protocol type, id size, id, password size,
    function, data, checksum. *)
Definition sample_response : packet :=
  [HEADER; PROTOCOL_TYPE; Section 2 None; Section 0x4142 (Some 2); Section 0 None;
   FUNC.R; Section 0x050A (Some 2); Section 0x9700 (Some 2)].

(** A parameter id is present in a mapping when it is mapped to a value,
    not to [None]. *)
Definition present (m : gmap Z (option Z)) (k : Z) : Prop :=
  ∃ v, m !! k = Some (Some v).

(** One iteration of the decoder loop that comes back to the loop test. *)
Definition scan_step (raw_data : pybytes) (st st' : decoder_state) : Prop :=
  loop_body raw_data st = Ok (Next st').

(** The rest of the scan from a state of the loop, with one iteration
    allowed per byte that is left. *)
Definition scan_from (raw_data : pybytes) (st : decoder_state)
  : outcome (gmap Z (option Z)) :=
  while_loop (length raw_data - index st) raw_data st.

(** The mapping decoded from the answer to one request: the common tail of
    [read_params], [write_params] and [write_param]. *)
Definition decoded_response
    (communicate : pybytes → pybytes)
    (decode : packet → pybytes → outcome packet)
    (self : BlaubergProtocol) (function : section) (data : packet)
  : outcome (gmap Z (option Z)) :=
  data_response ← _communicate_block communicate decode self function data;
  raw_data ← to_bytes data_response;
  _decode_data raw_data.

(** A device that never answers: every receive times out. *)
Definition silent_device : pybytes → pybytes := fun _ => [].

(** A state of the decoder after [FF 00 05 0A] of the block
    [FF 00 05 0A FD 05]. *)
Definition sample_block : pybytes :=
  [Byte.xff; Byte.x00; Byte.x05; Byte.x0a; Byte.xfd; Byte.x05].

Definition sample_state : decoder_state :=
  mk_state {[ 5 := Some 10 ]} [Byte.x00] 4.

(** ** Vocabulary of the encoder properties *)

(** The two bytes of a 16-bit parameter id. *)
Definition lead_of (param : Z) : Z := param / 256.
Definition tail_of (param : Z) : Z := param mod 256.

(** The two dictionary steps of the grouping loop as one: the tail joins
    the list of its lead, which is created last when it is new. *)
Fixpoint add_tail (lead tail : Z) (d : odict) : odict :=
  match d with
  | [] => [(lead, [tail])]
  | (lead', tails) :: d' =>
      if lead' =? lead then (lead', tails ++ [tail]) :: d'
      else (lead', tails) :: add_tail lead tail d'
  end.

(** The list stored under a lead, empty when there is none. *)
Definition tails_of (lead : Z) (d : odict) : list Z :=
  match dict_get lead d with
  | Ok tails => tails
  | _ => []
  end.

(** The groups of a sorted list of parameter ids. *)
Definition groups_of (params : list Z) : odict :=
  foldl (fun d param => add_tail (lead_of param) (tail_of param) d) [] params.

(** The fields of one parameter of a group: the bare tail byte for a read,
    marker, value length, tail byte and value for a write. *)
Definition tail_fields (val : option Z) (tail : Z) : packet :=
  match val with
  | Some val =>
      [DYNAMIC_VAL; Section (byte_size (Section val None)) None; Section tail None;
       (Section val None)]
  | None => [Section tail None]
  end.

(** The data block as section 4.4 of the specification lays it out: for
    each group the marker and the lead byte, then the fields of each tail. *)
Definition block_fields (parameters : gmap Z (option Z)) (groups : odict) : packet :=
  flat_map (fun '(lead, tails) =>
    [LEAD_INDICATOR; Section lead None]
    ++ flat_map (fun tail => tail_fields (default None (parameters !! (lead * 256 + tail))) tail) tails)
    groups.

(** The bytes of a read request laid out group by group. *)
Definition read_block_bytes (groups : odict) : pybytes :=
  flat_map (fun '(lead, tails) => Byte.xff :: int_byte lead :: map int_byte tails) groups.

(** The bytes of one written parameter and of a whole write request, for
    values whose length fits the one length byte. *)
Definition dynamic_bytes (tail val : Z) : pybytes :=
  [Byte.xfe; int_byte (auto_size val); int_byte tail]
  ++ be_digits (Z.to_nat (auto_size val)) val.

Definition write_block_bytes (parameters : gmap Z (option Z)) (groups : odict) : pybytes :=
  flat_map (fun '(lead, tails) =>
    Byte.xff :: int_byte lead
    :: flat_map (fun tail =>
         dynamic_bytes tail (default 0 (default None (parameters !! (lead * 256 + tail))))) tails)
    groups.

(** The fields of a read request laid out group by group: one marker and
    lead byte per group, then one bare tail byte per parameter. *)
Definition read_block_fields (groups : odict) : packet :=
  flat_map (fun '(lead, tails) =>
    LEAD_INDICATOR :: Section lead None :: map (fun tail => Section tail None) tails)
    groups.

(** A parameter of a write request that the block can carry: a tail byte
    and a non-negative value of at most 255 bytes. *)
Definition writable (parameters : gmap Z (option Z)) (lead tail : Z) : Prop :=
  0 <= tail < 256 ∧
  ∃ x, parameters !! (lead * 256 + tail) = Some (Some x) ∧ 0 <= x < 256 ^ 255.

(** ** The wire grammar of an incoming data block *)

(** One item of a data block as the decoder loop reads it: a lead switch,
    an id without a value, a length-prefixed value, or a tail and value
    pair. *)
Inductive item : Type :=
  | Lead (lead : Byte.byte)
  | Invalid (tail : Byte.byte)
  | Dynamic (tail : Byte.byte) (content : pybytes)
  | Default (tail val : Byte.byte).

Definition item_bytes (i : item) : pybytes :=
  match i with
  | Lead lead => [Byte.xff; lead]
  | Invalid tail => [Byte.xfd; tail]
  | Dynamic tail content =>
      Byte.xfe :: int_byte (Z.of_nat (length content)) :: tail :: content
  | Default tail val => [tail; val]
  end.

(** The length of a dynamic value fits its length byte, and the tail of a
    pair is not one of the three markers. *)
Definition item_ok (i : item) : Prop :=
  match i with
  | Dynamic _ content => (length content < 256)%nat
  | Default tail _ => tail ≠ Byte.xff ∧ tail ≠ Byte.xfd ∧ tail ≠ Byte.xfe
  | _ => True
  end.

(** What an item does to the mapping and to the current lead byte. *)
Definition apply_item (acc : gmap Z (option Z) * pybytes) (i : item)
  : gmap Z (option Z) * pybytes :=
  let '(vals, lead) := acc in
  match i with
  | Lead l => (vals, [l])
  | Invalid tail =>
      (match vals !! param_of lead [tail] with
       | None => <[param_of lead [tail] := None]> vals
       | Some _ => vals
       end, lead)
  | Dynamic tail content =>
      (<[param_of lead [tail] := Some (int_from_bytes content)]> vals, lead)
  | Default tail val =>
      (<[param_of lead [tail] := Some (byte_int val)]> vals, lead)
  end.

Definition apply_items (items : list item) : gmap Z (option Z) :=
  (foldl apply_item (∅, []) items).1.

Definition block_bytes (items : list item) : pybytes := flat_map item_bytes items.

(** The ids of the groups of a block, group by group. *)
Definition group_ids (groups : odict) : list Z :=
  flat_map (fun '(lead, tails) => (fun tail => lead * 256 + tail) <$> tails) groups.

(** The leads of the keys of a mapping. *)
Definition leads_of (parameters : gmap Z (option Z)) : gset Z :=
  set_map lead_of (dom parameters).

(** An entry a decoded mapping can hold: a 16-bit id with no value or with
    a non-negative value of at most 255 bytes. *)
Definition decoded_entry (k : Z) (v : option Z) : Prop :=
  0 <= k < 65536 ∧
  match v with
  | Some x => 0 <= x < 256 ^ 255
  | None => True
  end.

(** The invariant of the decoder loop behind [decoded_entry]. *)
Definition state_ok (st : decoder_state) : Prop :=
  (length (lead_byte st) ≤ 1)%nat ∧ map_Forall decoded_entry (values st).

(** A mapping the encoder and the frame can carry: 16-bit ids, each to be
    read or to be written with a non-negative value. *)
Definition sendable (k : Z) (v : option Z) : Prop :=
  0 <= k < 65536 ∧
  match v with
  | Some x => 0 <= x
  | None => True
  end.

(** ** Values handed over by the home-automation side ([blauberg_device.py]) *)

(** [float | str | int | bool | None].  Floats are not computed with, only
    passed on, so their type is a parameter. *)
Inductive variable (F : Type) : Type :=
  | VNone
  | VFloat (f : F)
  | VStr (s : str)
  | VBool (b : bool)
  | VInt (n : Z).

Arguments VNone {F}.
Arguments VFloat {F} f.
Arguments VStr {F} s.
Arguments VBool {F} b.
Arguments VInt {F} n.

(** [variable_to_bytes]: the tests are made in the order None, float, str,
    bool; [float(variable)] of a float is that float. *)
Definition variable_to_bytes {F} (v : variable F) : outcome (Z + F) :=
  match v with
  | VNone => Ok (inl (-1))
  | VFloat f => Ok (inr f)
  | VStr s => b ← utf8 s; mret (inl (int_from_bytes b))
  | VBool b => Ok (inl (if b then 1 else 0))
  | VInt n => Ok (inl n)
  end.

(** * Properties *)

(** One step of a computation in [outcome]: the bind of a known result. *)
Ltac run := cbn [mbind outcome_bind mret outcome_ret].

(** Membership in a list at its head, and in its tail. *)
Ltac at_head := by apply list_elem_of_here.
Ltac in_rest H := intros; eapply H; eauto using list_elem_of_further.

(** ** Bytes and big-endian integers *)

Lemma byte_int_range b : 0 <= byte_int b < 256.
Proof.
  unfold byte_int. pose proof (Byte.to_N_bounded b). lia.
Qed.

Lemma int_byte_int b : int_byte (byte_int b) = b.
Proof.
  unfold int_byte, byte_int. rewrite N2Z.id, Byte.of_to_N. done.
Qed.

Lemma byte_int_byte z : 0 <= z < 256 → byte_int (int_byte z) = z.
Proof.
  intros Hz. unfold int_byte, byte_int.
  destruct (Byte.of_N (Z.to_N z)) as [b|] eqn:E; simpl.
  - apply Byte.to_of_N in E.
    assert (Z.of_N (Byte.to_N b) = Z.of_N (Z.to_N z)) by congruence. lia.
  - apply Byte.of_N_None_iff in E. lia.
Qed.

Lemma byte_int_inj a b : byte_int a = byte_int b → a = b.
Proof.
  intros H. rewrite <- (int_byte_int a), <- (int_byte_int b). by rewrite H.
Qed.

Lemma int_from_bytes_snoc b x :
  int_from_bytes (b ++ [x]) = int_from_bytes b * 256 + byte_int x.
Proof. unfold int_from_bytes. by rewrite foldl_app. Qed.

Lemma int_from_bytes_range b : 0 <= int_from_bytes b < 256 ^ Z.of_nat (length b).
Proof.
  induction b as [|x b IH] using rev_ind; [by vm_compute|].
  rewrite int_from_bytes_snoc, length_app. simpl length.
  replace (Z.of_nat (length b + 1)) with (Z.succ (Z.of_nat (length b))) by lia.
  rewrite Z.pow_succ_r by lia. pose proof (byte_int_range x). lia.
Qed.

Lemma length_be_digits n v : length (be_digits n v) = n.
Proof.
  revert v. induction n as [|n IH]; intros v; simpl; [done|].
  rewrite length_app, IH. simpl. lia.
Qed.

Lemma int_from_be_digits n v :
  int_from_bytes (be_digits n v) = v mod 256 ^ Z.of_nat n.
Proof.
  revert v. induction n as [|n IH]; intros v.
  - simpl. by rewrite Z.mod_1_r.
  - cbn [be_digits]. rewrite int_from_bytes_snoc, IH.
    rewrite byte_int_byte by (apply Z.mod_pos_bound; lia).
    replace (Z.of_nat (S n)) with (Z.succ (Z.of_nat n)) by lia.
    rewrite Z.pow_succ_r by lia.
    rewrite (Z.rem_mul_r v 256 (256 ^ Z.of_nat n)) by lia. lia.
Qed.

Lemma be_digits_int_from_bytes b :
  be_digits (length b) (int_from_bytes b) = b.
Proof.
  induction b as [|x b IH] using rev_ind; [done|].
  rewrite length_app, int_from_bytes_snoc. simpl length.
  replace (length b + 1)%nat with (S (length b)) by lia. cbn [be_digits].
  pose proof (byte_int_range x).
  replace ((int_from_bytes b * 256 + byte_int x) / 256) with (int_from_bytes b)
    by (apply Z.div_unique with (byte_int x); lia).
  replace ((int_from_bytes b * 256 + byte_int x) mod 256) with (byte_int x)
    by (apply Z.mod_unique with (int_from_bytes b); lia).
  by rewrite IH, int_byte_int.
Qed.

(** ** Field sizes and serialisation *)

Lemma bit_length_bound v : 0 <= v → 0 <= bit_length v ∧ v < 2 ^ bit_length v.
Proof.
  intros Hv. unfold bit_length. destruct (Z.eqb_spec v 0) as [->|Hne].
  - simpl. lia.
  - rewrite Z.abs_eq by lia. pose proof (Z.log2_nonneg v).
    pose proof (Z.log2_spec v). split; [lia|].
    replace (Z.log2 v + 1) with (Z.succ (Z.log2 v)) by lia. lia.
Qed.

Lemma auto_size_pos v : 1 <= auto_size v.
Proof. unfold auto_size. lia. Qed.

Lemma auto_size_fits v : 0 <= v → v < 256 ^ auto_size v.
Proof.
  intros Hv. destruct (bit_length_bound v Hv) as [Hb Hlt].
  unfold auto_size.
  set (k := (bit_length v + 7) / 8).
  assert (bit_length v <= 8 * k) by (subst k; pose proof (Z.div_mod (bit_length v + 7) 8); pose proof (Z.mod_pos_bound (bit_length v + 7) 8); lia).
  assert (0 <= k) by (subst k; apply Z.div_pos; lia).
  eapply Z.lt_le_trans; [exact Hlt|].
  change 256 with (2 ^ 8). rewrite <- Z.pow_mul_r by lia.
  apply Z.pow_le_mono_r; lia.
Qed.

Lemma auto_size_le v n : 1 <= n → 0 <= v < 256 ^ n → auto_size v <= n.
Proof.
  intros Hn [Hv Hlt]. unfold auto_size, bit_length.
  destruct (Z.eqb_spec v 0) as [->|Hne].
  - change ((0 + 7) / 8) with 0. lia.
  - rewrite Z.abs_eq by lia.
    assert (Z.log2 v < 8 * n).
    { apply Z.log2_lt_pow2; [lia|]. rewrite Z.pow_mul_r by lia. exact Hlt. }
    assert ((Z.log2 v + 1 + 7) / 8 <= n).
    { apply Z.lt_succ_r. apply Z.div_lt_upper_bound; lia. }
    lia.
Qed.

Lemma auto_size_byte v : 0 <= v < 256 → auto_size v = 1.
Proof.
  intros Hv. pose proof (auto_size_pos v).
  pose proof (auto_size_le v 1). change (256 ^ 1) with 256 in *. lia.
Qed.

Lemma to_bytes_auto v :
  0 <= v → to_bytes (Section v None) = Ok (be_digits (Z.to_nat (auto_size v)) v).
Proof.
  intros Hv. unfold to_bytes, int_to_bytes, Section. cbn [value byte_size from_option id].
  pose proof (auto_size_pos v). pose proof (auto_size_fits v Hv).
  destruct (Z.ltb_spec (auto_size v) 0); [lia|].
  destruct (Z.leb_spec 0 v); [|lia].
  destruct (Z.ltb_spec v (256 ^ auto_size v)); [done|lia].
Qed.

Lemma to_bytes_byte v : 0 <= v < 256 → to_bytes (Section v None) = Ok [int_byte v].
Proof.
  intros Hv. rewrite to_bytes_auto by lia. rewrite auto_size_byte by done.
  change (Z.to_nat 1) with 1%nat. cbn [be_digits app].
  by rewrite Z.mod_small.
Qed.

Lemma to_bytes_sized v n :
  0 <= n → 0 <= v < 256 ^ n →
  to_bytes (Section v (Some n)) = Ok (be_digits (Z.to_nat n) v).
Proof.
  intros Hn Hv. unfold to_bytes, int_to_bytes, Section. cbn [value byte_size from_option id].
  destruct (Z.ltb_spec n 0); [lia|].
  destruct (Z.leb_spec 0 v); [|lia].
  destruct (Z.ltb_spec v (256 ^ n)); [done|lia].
Qed.

(** A template filled with exactly as many bytes as it declares gives those
    bytes back. *)
Lemma to_bytes_set_bytes s b :
  byte_size s = Z.of_nat (length b) → to_bytes (set_bytes s b) = Ok b.
Proof.
  intros Hs. unfold to_bytes, int_to_bytes, set_bytes. cbn [value byte_size].
  rewrite Hs. pose proof (int_from_bytes_range b).
  destruct (Z.ltb_spec (Z.of_nat (length b)) 0); [lia|].
  destruct (Z.leb_spec 0 (int_from_bytes b)); [|lia].
  destruct (Z.ltb_spec (int_from_bytes b) (256 ^ Z.of_nat (length b))); [|lia].
  simpl. by rewrite Nat2Z.id, be_digits_int_from_bytes.
Qed.

Lemma to_bytes_length s b : to_bytes s = Ok b → Z.of_nat (length b) = byte_size s.
Proof.
  unfold to_bytes, int_to_bytes. intros H.
  destruct (Z.ltb_spec (byte_size s) 0); [done|].
  destruct (_ && _); [|done]. injection H as <-. rewrite length_be_digits. lia.
Qed.

Lemma int_from_bytes_to_bytes s b : to_bytes s = Ok b → int_from_bytes b = value s.
Proof.
  unfold to_bytes, int_to_bytes. intros H.
  destruct (Z.ltb_spec (byte_size s) 0); [done|].
  destruct (Z.leb_spec 0 (value s)); [|done].
  destruct (Z.ltb_spec (value s) (256 ^ byte_size s)); [|done].
  injection H as <-. rewrite int_from_be_digits, Z2Nat.id by lia.
  apply Z.mod_small. lia.
Qed.

(** ** The checksum *)

Lemma lor_high_low a b : 0 <= b < 256 → Z.lor (a * 256) b = a * 256 + b.
Proof.
  intros Hb.
  assert (Hdisj : Z.land (a * 256) b = 0).
  { apply Z.bits_inj'. intros n Hn. rewrite Z.land_spec, Z.bits_0.
    destruct (Z.lt_ge_cases n 8) as [Hlt|Hge].
    - change 256 with (2 ^ 8). rewrite Z.mul_pow2_bits_low by lia. done.
    - destruct (Z.eq_dec b 0) as [->|Hne]; [by rewrite Z.bits_0, andb_false_r|].
      rewrite (Z.bits_above_log2 b n), andb_false_r; [done|lia|].
      apply Z.lt_le_trans with 8; [|lia]. apply Z.log2_lt_pow2; lia. }
  rewrite <- Z.lxor_lor by done. symmetry. by apply Z.add_nocarry_lxor.
Qed.

Lemma _swap_high_low_8 v : _swap_high_low v 8 = byte_swap16 (v mod 65536).
Proof.
  unfold _swap_high_low, byte_swap16.
  change (int_base2 0 _) with (Z.shiftl 255 8) at 1.
  change (int_base2 0 _) with (Z.ones 8).
  change (Z.of_nat 8) with 8.
  rewrite <- Z.shiftl_land. change 255 with (Z.ones 8).
  rewrite !Z.land_ones by lia. rewrite Z.shiftl_mul_pow2, Z.shiftr_div_pow2 by lia.
  change (2 ^ 8) with 256.
  rewrite lor_high_low by (apply Z.mod_pos_bound; lia).
  change 65536 with (256 * 256).
  rewrite (Z.rem_mul_r v 256 256) by lia.
  pose proof (Z.mod_pos_bound v 256). pose proof (Z.mod_pos_bound (v / 256) 256).
  replace ((v mod 256 + 256 * ((v / 256) mod 256)) mod 256) with (v mod 256)
    by (apply Z.mod_unique with ((v / 256) mod 256); lia).
  replace ((v mod 256 + 256 * ((v / 256) mod 256)) / 256) with ((v / 256) mod 256)
    by (apply Z.div_unique with (v mod 256); lia).
  done.
Qed.

Lemma byte_swap16_range s : 0 <= s < 65536 → 0 <= byte_swap16 s < 65536.
Proof.
  intros Hs. unfold byte_swap16.
  pose proof (Z.mod_pos_bound s 256).
  assert (0 <= s / 256 < 256) by (split; [apply Z.div_pos; lia|apply Z.div_lt_upper_bound; lia]).
  lia.
Qed.

(** The two bytes of the checksum field: the low byte of the sum first. *)
Lemma checksum_field_bytes s :
  0 <= s < 65536 →
  to_bytes (Section (byte_swap16 s) (Some 2)) = Ok [int_byte (s mod 256); int_byte (s / 256)].
Proof.
  intros Hs. pose proof (byte_swap16_range s Hs).
  rewrite to_bytes_sized by (change (256 ^ 2) with 65536; lia).
  change (Z.to_nat 2) with 2%nat. cbn [be_digits app].
  assert (0 <= s / 256 < 256) by (split; [apply Z.div_pos; lia|apply Z.div_lt_upper_bound; lia]).
  pose proof (Z.mod_pos_bound s 256).
  unfold byte_swap16.
  replace ((s mod 256 * 256 + s / 256) / 256) with (s mod 256)
    by (apply Z.div_unique with (s / 256); lia).
  replace ((s mod 256 * 256 + s / 256) mod 256) with (s / 256)
    by (apply Z.mod_unique with (s mod 256); lia).
  by rewrite (Z.mod_small (s mod 256)) by lia.
Qed.

Lemma sum_bytes_nonneg b : 0 <= sum_bytes b.
Proof.
  induction b as [|x b IH]; [done|]. pose proof (byte_int_range x).
  change (sum_bytes (x :: b)) with (byte_int x + sum_bytes b). lia.
Qed.

Lemma _checksum_eq data covered :
  packet_to_bytes data = Ok covered →
  _checksum data = Ok (Section (byte_swap16 (sum_bytes covered mod 65536)) (Some 2)).
Proof.
  intros H. unfold _checksum. rewrite H. simpl. by rewrite _swap_high_low_8.
Qed.

(** ** Frames *)

Lemma bind_Ok {A B} (m : outcome A) (f : A → outcome B) b :
  m ≫= f = Ok b ↔ ∃ a, m = Ok a ∧ f a = Ok b.
Proof.
  split.
  - destruct m as [a| |]; [|done..]. intros H. by exists a.
  - intros (a & -> & H). done.
Qed.

Lemma packet_to_bytes_cons s p b :
  packet_to_bytes (s :: p) = Ok b ↔
  ∃ b1 b2, to_bytes s = Ok b1 ∧ packet_to_bytes p = Ok b2 ∧ b = b1 ++ b2.
Proof.
  cbn [packet_to_bytes]. rewrite bind_Ok. split.
  - intros (b1 & H1 & H). apply bind_Ok in H as (b2 & H2 & H).
    injection H as <-. eauto.
  - intros (b1 & b2 & H1 & H2 & ->). exists b1. split; [done|]. by rewrite H2.
Qed.

Lemma packet_to_bytes_app p q b :
  packet_to_bytes (p ++ q) = Ok b ↔
  ∃ b1 b2, packet_to_bytes p = Ok b1 ∧ packet_to_bytes q = Ok b2 ∧ b = b1 ++ b2.
Proof.
  revert b. induction p as [|s p IH]; intros b.
  - simpl. split; [intros H; by exists [], b|]. by intros (b1 & b2 & [= <-] & H & ->).
  - rewrite <- app_comm_cons, packet_to_bytes_cons. split.
    + intros (b1 & b2 & H1 & H2 & ->). apply IH in H2 as (c1 & c2 & Hc1 & Hc2 & ->).
      exists (b1 ++ c1), c2. rewrite app_assoc. split_and!; [|done..].
      apply packet_to_bytes_cons. eauto.
    + intros (b1 & b2 & H1 & H2 & ->).
      apply packet_to_bytes_cons in H1 as (c1 & c2 & Hc1 & Hc2 & ->).
      exists c1, (c2 ++ b2). rewrite app_assoc. split_and!; [done| |done].
      apply IH. eauto.
Qed.

Lemma packet_to_bytes_length p b :
  packet_to_bytes p = Ok b → Z.of_nat (length b) = packet_byte_size p.
Proof.
  revert b. induction p as [|s p IH]; intros b.
  - by intros [= <-].
  - intros (b1 & b2 & H1 & H2 & ->)%packet_to_bytes_cons.
    rewrite length_app, Nat2Z.inj_add, (to_bytes_length _ _ H1), (IH _ H2). done.
Qed.

Lemma to_bytes_from_bytes s b :
  value s = int_from_bytes b → byte_size s = Z.of_nat (length b) → to_bytes s = Ok b.
Proof.
  intros Hv Hs. rewrite <- (to_bytes_set_bytes s b Hs).
  unfold to_bytes, set_bytes. cbn [value byte_size]. by rewrite Hv.
Qed.

(** The field that carries the data block serialises to the data block. *)
Lemma data_field_bytes data data_bytes :
  packet_to_bytes data = Ok data_bytes →
  to_bytes (Section (int_from_bytes data_bytes) (Some (packet_byte_size data))) = Ok data_bytes.
Proof.
  intros H. apply to_bytes_from_bytes; [done|].
  cbn. by rewrite (packet_to_bytes_length _ _ H).
Qed.

Lemma slice_inner {A} (x : A) l y :
  slice (x :: l ++ [y]) 1 (length (x :: l ++ [y]) - 1) = l.
Proof.
  unfold slice. cbn [length drop]. rewrite drop_0, length_app. simpl length.
  replace (S (length l + 1) - 1 - 1)%nat with (length l) by lia.
  by rewrite take_app_length.
Qed.

(** The fields of a command between the header and the checksum. *)
Lemma _command_inv self function data command :
  _command self function data = Ok command →
  ∃ id_bytes pwd_fields data_bytes check,
    utf8 (_device_id self) = Ok id_bytes ∧
    packet_to_bytes data = Ok data_bytes ∧
    (if value (_pwd_size self) =? 0 then pwd_fields = []
     else ∃ pwd_bytes, utf8 (_password self) = Ok pwd_bytes ∧
          pwd_fields = [set_bytes (Packet.Template (value (_pwd_size self))) pwd_bytes]) ∧
    let covered :=
      [PROTOCOL_TYPE; _id_size self;
       set_bytes (Packet.Template (value (_id_size self))) id_bytes; _pwd_size self]
      ++ pwd_fields
      ++ [function; Section (int_from_bytes data_bytes) (Some (packet_byte_size data))] in
    _checksum covered = Ok check ∧ command = HEADER :: covered ++ [check].
Proof.
  unfold _command, _protocol, packet_to_int.
  destruct (value (_pwd_size self) =? 0) eqn:Hpwd; cbn -[_checksum utf8 packet_to_bytes].
  - destruct (utf8 (_device_id self)) as [id_bytes| |]; [|done..].
    destruct (packet_to_bytes data) as [data_bytes| |]; [|done..].
    cbn -[_checksum].
    intros (check & Hc & [= <-])%bind_Ok.
    exists id_bytes, [], data_bytes, check. split_and!; try done.
  - destruct (utf8 (_device_id self)) as [id_bytes| |]; [|done..].
    cbn -[_checksum utf8 packet_to_bytes].
    destruct (utf8 (_password self)) as [pwd_bytes| |]; [|done..].
    cbn -[_checksum utf8 packet_to_bytes].
    destruct (packet_to_bytes data) as [data_bytes| |]; [|done..].
    cbn -[_checksum].
    intros (check & Hc & [= <-])%bind_Ok.
    exists id_bytes, [set_bytes (Packet.Template (value (_pwd_size self))) pwd_bytes],
      data_bytes, check. split_and!; try done. eauto.
Qed.

Lemma _command_eq self function data id_bytes data_bytes pwd_fields :
  utf8 (_device_id self) = Ok id_bytes →
  packet_to_bytes data = Ok data_bytes →
  (if value (_pwd_size self) =? 0 then pwd_fields = []
   else ∃ pwd_bytes, utf8 (_password self) = Ok pwd_bytes ∧
        pwd_fields = [set_bytes (Packet.Template (value (_pwd_size self))) pwd_bytes]) →
  let covered :=
    [PROTOCOL_TYPE; _id_size self;
     set_bytes (Packet.Template (value (_id_size self))) id_bytes; _pwd_size self]
    ++ pwd_fields
    ++ [function; Section (int_from_bytes data_bytes) (Some (packet_byte_size data))] in
  _command self function data = check ← _checksum covered; mret (HEADER :: covered ++ [check]).
Proof.
  intros Hid Hdata Hpwd. unfold _command, _protocol, packet_to_int.
  destruct (value (_pwd_size self) =? 0) eqn:E; cbn -[_checksum utf8 packet_to_bytes].
  - subst pwd_fields. rewrite Hid, Hdata. cbn -[_checksum].
    by destruct (_checksum _).
  - destruct Hpwd as (pwd_bytes & Hp & ->). rewrite Hid. cbn -[_checksum utf8 packet_to_bytes].
    rewrite Hp. cbn -[_checksum utf8 packet_to_bytes]. rewrite Hdata. cbn -[_checksum].
    by destruct (_checksum _).
Qed.

Lemma utf8_ascii s : ascii_only s → utf8 s = Ok (map int_byte s).
Proof.
  induction 1 as [|c s Hc _ IH]; [done|].
  cbn [utf8 map]. rewrite IH. unfold utf8_char.
  destruct (Z.ltb_spec c 0); [lia|]. destruct (Z.ltb_spec 0x10FFFF c); [lia|].
  destruct (Z.ltb_spec c 0x80); [done|lia].
Qed.

Lemma to_bytes_HEADER : to_bytes HEADER = Ok [Byte.xfd; Byte.xfd].
Proof. reflexivity. Qed.

Lemma to_bytes_PROTOCOL_TYPE : to_bytes PROTOCOL_TYPE = Ok [Byte.x02].
Proof. reflexivity. Qed.

Lemma sum_mod_range b : 0 <= sum_bytes b mod 65536 < 65536.
Proof. apply Z.mod_pos_bound. lia. Qed.

(** C2: the checksum field of every command, and the checksum expected of
    every parsed response, is the byte swap of the sum modulo 65536 of the
    bytes from the protocol-type byte to the end of the data block; the
    frame is the two header bytes, the covered bytes, and the two bytes of
    the checksum, the low byte of the sum first. *)
Theorem checksum_is_byte_swapped_sum self function data command response covered' :
  _command self function data = Ok command →
  packet_to_bytes (slice response 1 (length response - 1)) = Ok covered' →
  ∃ middle data_bytes,
    let covered := Byte.x02 :: middle ++ data_bytes in
    let s := sum_bytes covered mod 65536 in
    packet_to_bytes data = Ok data_bytes ∧
    packet_to_bytes (slice command 1 (length command - 1)) = Ok covered ∧
    last command = Some (Section (byte_swap16 s) (Some 2)) ∧
    packet_to_bytes command =
      Ok ([Byte.xfd; Byte.xfd] ++ covered ++ [int_byte (s mod 256); int_byte (s / 256)]) ∧
    expected_check_sum response = Ok (byte_swap16 (sum_bytes covered' mod 65536)).
Proof.
  intros Hcmd Hresp.
  apply _command_inv in Hcmd
    as (id_bytes & pwd_fields & data_bytes & check & _ & Hdata & _ & Hcheck & ->).
  set (covered_fields := _ ++ _ ++ _) in *.
  assert (∃ covered, packet_to_bytes covered_fields = Ok covered) as [covered Hcov].
  { unfold _checksum in Hcheck. destruct (packet_to_bytes covered_fields); eauto; done. }
  rewrite (_checksum_eq _ _ Hcov) in Hcheck. injection Hcheck as <-.
  pose proof Hcov as Hsplit. subst covered_fields.
  rewrite <- app_comm_cons in Hsplit.
  apply packet_to_bytes_cons in Hsplit as (b1 & rest & Hpt & Hrest & ->).
  rewrite to_bytes_PROTOCOL_TYPE in Hpt. injection Hpt as <-.
  change ([_id_size self; ?a; ?b] ++ pwd_fields ++ [function; ?d])
    with ([_id_size self; a; b] ++ pwd_fields ++ [function] ++ [d]) in Hrest.
  rewrite !app_assoc in Hrest.
  apply packet_to_bytes_app in Hrest as (middle & dbytes & Hmid & Hd & ->).
  apply packet_to_bytes_cons in Hd as (d1 & d2 & Hd1 & [= <-] & ->).
  rewrite (data_field_bytes _ _ Hdata) in Hd1. injection Hd1 as <-.
  rewrite app_nil_r in *.
  exists middle, data_bytes. cbn zeta.
  set (s := sum_bytes (Byte.x02 :: middle ++ data_bytes) mod 65536).
  split_and!.
  - done.
  - by rewrite slice_inner.
  - by rewrite app_comm_cons, last_snoc.
  - apply packet_to_bytes_cons. exists [Byte.xfd; Byte.xfd], ((Byte.x02 :: middle ++ data_bytes) ++ [int_byte (s mod 256); int_byte (s / 256)]).
    split_and!; [done| |done].
    apply packet_to_bytes_app. eexists _, _. split_and!; [exact Hcov| |done].
    apply packet_to_bytes_cons. eexists _, []. split_and!; [|done|by rewrite app_nil_r].
    apply checksum_field_bytes, sum_mod_range.
  - unfold expected_check_sum. by rewrite (_checksum_eq _ _ Hresp).
Qed.

Lemma checksum_is_byte_swapped_sum_witness :
  ∃ command middle data_bytes,
    _command sample_client FUNC.R sample_data = Ok command ∧
    packet_to_bytes sample_data = Ok data_bytes ∧
    packet_to_bytes command =
      Ok ([Byte.xfd; Byte.xfd] ++ (Byte.x02 :: middle ++ data_bytes)
          ++ [int_byte ((sum_bytes (Byte.x02 :: middle ++ data_bytes) mod 65536) mod 256);
              int_byte ((sum_bytes (Byte.x02 :: middle ++ data_bytes) mod 65536) / 256)]) ∧
    expected_check_sum sample_response = Ok 0x9700.
Proof.
  eexists.
  edestruct (checksum_is_byte_swapped_sum sample_client FUNC.R sample_data)
    as (middle & data_bytes & Hd & _ & _ & Hf & He).
  - vm_compute. reflexivity.
  - instantiate (2 := sample_response). vm_compute. reflexivity.
  - exists middle, data_bytes. split_and!; [reflexivity|exact Hd|exact Hf|exact He].
Defined.

(** C7: constructing a client with an empty device id raises; with any
    other device id the construction returns the client. *)
Theorem empty_device_id_is_fatal host port password device_id :
  match device_id with
  | [] => __init__ host port password device_id = Raise ValueError
  | _ :: _ =>
      ∃ self, __init__ host port password device_id = Ok self ∧
              _device_id self = device_id ∧ _password self = password
  end.
Proof.
  destruct device_id as [|c s]; [done|].
  unfold __init__, eq_int, Section. cbn [value].
  destruct (Z.eqb_spec (Z.of_nat (length (c :: s))) 0) as [E|_]; [simpl in E; lia|].
  eexists. split_and!; reflexivity.
Qed.
(** ** The password field of a command *)






(** Characters of two, three and four bytes, and a lone surrogate, which
    [bytes(s, 'utf-8')] refuses. *)
Example utf8_samples :
  utf8 [233] = Ok [Byte.xc3; Byte.xa9] ∧
  utf8 [0x20AC] = Ok [Byte.xe2; Byte.x82; Byte.xac] ∧
  utf8 [0x1F600] = Ok [Byte.xf0; Byte.x9f; Byte.x98; Byte.x80] ∧
  utf8 [0xD800] = Raise UnicodeEncodeError.
Proof. repeat split. Qed.

(** With the default password "1111" the four password bytes follow the
    length byte 04. *)
Example default_password_frame :
  (command ← _command sample_client_pwd FUNC.R sample_data; packet_to_bytes command)
  = Ok [Byte.xfd; Byte.xfd; Byte.x02; Byte.x02; Byte.x41; Byte.x42; Byte.x04;
        Byte.x31; Byte.x31; Byte.x31; Byte.x31; Byte.x01; Byte.x05; Byte.x55; Byte.x01].
Proof. reflexivity. Qed.

(** ** The decoder loop *)

Lemma getitem_drop {A} (l : list A) i x rest :
  drop i l = x :: rest → getitem l i = Ok x ∧ drop (S i) l = rest.
Proof.
  intros H. assert (Hx : l !! i = Some x).
  { rewrite <- (Nat.add_0_r i), <- lookup_drop, H. done. }
  split; [unfold getitem; by rewrite Hx|].
  apply drop_S in Hx. congruence.
Qed.

Lemma getitem_Ok {A} (l : list A) i x : getitem l i = Ok x ↔ l !! i = Some x.
Proof. unfold getitem. destruct (l !! i); split; congruence. Qed.

(** What an iteration that continues does to the state: the index moves
    forward and the mapping is unchanged or gains one binding. *)
Lemma loop_body_Next raw st st' :
  loop_body raw st = Ok (Next st') →
  (index st < index st')%nat ∧
  (values st' = values st ∨
   (∃ p, values st !! p = None ∧ values st' = <[p := None]> (values st)) ∨
   (∃ p v, values st' = <[p := Some v]> (values st))).
Proof.
  unfold loop_body.
  destruct (getitem raw (index st)) as [func| |]; [|done..]. cbn [mbind outcome_bind].
  destruct (byte_int func =? value LEAD_INDICATOR).
  { destruct (getitem raw (S (index st))); [|done..]. intros [= <-]. cbn. split; [lia|by left]. }
  destruct (byte_int func =? value INVALID).
  { destruct (getitem raw (S (index st))) as [t| |]; [|done..]. intros [= <-]. cbn.
    split; [lia|]. destruct (values st !! _) eqn:E; [by left|right; left; eauto]. }
  destruct (byte_int func =? value DYNAMIC_VAL).
  { destruct (getitem raw (S (index st))) as [L| |]; [|done..]. cbn [mbind outcome_bind].
    destruct (_ <? _)%nat; [done|].
    destruct (getitem raw (S (S (index st)))) as [t| |]; [|done..]. intros [= <-]. cbn.
    split; [lia|right; right; eauto]. }
  cbn [mbind outcome_bind].
  destruct (getitem raw (S (index st))) as [x| |]; [|done..]. intros [= <-]. cbn.
  split; [lia|right; right; eauto].
Qed.

Lemma getitem_not_OutOfFuel {A} (l : list A) i : getitem l i ≠ OutOfFuel.
Proof. unfold getitem. by destruct (l !! i). Qed.

Lemma loop_body_not_OutOfFuel raw st : loop_body raw st ≠ OutOfFuel.
Proof.
  unfold loop_body.
  repeat match goal with
  | |- context [getitem ?l ?i] =>
      let E := fresh in
      destruct (getitem l i) eqn:E;
      [run| done | by apply getitem_not_OutOfFuel in E]
  | |- context [if ?c then _ else _] => destruct c
  end; done.
Qed.

Lemma while_loop_fuel_irrelevant raw f1 f2 st :
  (length raw - index st ≤ f1)%nat → (length raw - index st ≤ f2)%nat →
  while_loop f1 raw st = while_loop f2 raw st.
Proof.
  revert f2 st. induction f1 as [|f1 IH]; intros f2 st H1 H2.
  - destruct f2; simpl; destruct (Nat.ltb_spec (index st) (length raw)); try done; lia.
  - destruct f2 as [|f2]; simpl; destruct (Nat.ltb_spec (index st) (length raw)); try done; [lia|].
    destruct (loop_body raw st) as [[st'|r]| |] eqn:E; try done.
    cbn [mbind outcome_bind]. apply loop_body_Next in E as [Hlt _]. apply IH; lia.
Qed.

Lemma while_loop_enough_fuel raw fuel st :
  (length raw - index st ≤ fuel)%nat → while_loop fuel raw st ≠ OutOfFuel.
Proof.
  revert st. induction fuel as [|fuel IH]; intros st H; simpl;
    destruct (Nat.ltb_spec (index st) (length raw)); try done.
  - lia.
  - destruct (loop_body raw st) as [[st'|r]| |] eqn:E; try done.
    + cbn [mbind outcome_bind]. apply loop_body_Next in E as [Hlt _]. apply IH; lia.
    + by apply loop_body_not_OutOfFuel in E.
Qed.

(** The decoder always comes to an end within the iterations it is given. *)
Lemma _decode_data_terminates raw : _decode_data raw ≠ OutOfFuel.
Proof. apply while_loop_enough_fuel. lia. Qed.

Lemma _decode_data_scan raw : _decode_data raw = scan_from raw initial_state.
Proof. unfold _decode_data, scan_from. simpl. by rewrite Nat.sub_0_r. Qed.

Lemma scan_from_done raw st :
  (length raw ≤ index st)%nat → scan_from raw st = Ok (values st).
Proof.
  intros H. unfold scan_from. replace (length raw - index st)%nat with 0%nat by lia.
  simpl. destruct (Nat.ltb_spec (index st) (length raw)); [lia|done].
Qed.

Lemma scan_from_body raw st :
  (index st < length raw)%nat →
  scan_from raw st =
    c ← loop_body raw st;
    match c with
    | Next st' => scan_from raw st'
    | Return result => Ok result
    end.
Proof.
  intros H. unfold scan_from.
  destruct (length raw - index st)%nat as [|n] eqn:E; [lia|].
  simpl. destruct (Nat.ltb_spec (index st) (length raw)); [|lia].
  destruct (loop_body raw st) as [[st'|r]| |] eqn:Eb; try done.
  cbn [mbind outcome_bind]. apply loop_body_Next in Eb as [Hlt _].
  apply while_loop_fuel_irrelevant; lia.
Qed.

Lemma scan_from_step raw st st' :
  (index st < length raw)%nat → scan_step raw st st' →
  scan_from raw st = scan_from raw st'.
Proof. intros H Hs. rewrite scan_from_body by done. by rewrite Hs. Qed.

(** *** The four branches of the loop body, on the bytes not yet scanned *)

Lemma drop_cons_length {A} (l : list A) i x rest :
  drop i l = x :: rest → length l = (i + S (length rest))%nat.
Proof.
  intros H. pose proof (length_drop l i) as Hl. rewrite H in Hl. simpl in Hl. lia.
Qed.

Lemma marker_eqb_ne (b m : Byte.byte) : b ≠ m → (byte_int b =? byte_int m) = false.
Proof.
  intros Hne. apply Z.eqb_neq. intros E. by apply byte_int_inj in E.
Qed.

Lemma step_lead raw st l rest :
  drop (index st) raw = Byte.xff :: l :: rest →
  scan_step raw st (mk_state (values st) [l] (S (S (index st)))).
Proof.
  intros H. apply getitem_drop in H as [H0 H]. apply getitem_drop in H as [H1 _].
  unfold scan_step, loop_body. rewrite H0. cbn [mbind outcome_bind].
  change (byte_int Byte.xff =? value LEAD_INDICATOR) with true. cbn match.
  by rewrite H1.
Qed.

Lemma step_invalid raw st t rest :
  drop (index st) raw = Byte.xfd :: t :: rest →
  scan_step raw st
    (mk_state
       (match values st !! param_of (lead_byte st) [t] with
        | None => <[param_of (lead_byte st) [t] := None]> (values st)
        | Some _ => values st
        end)
       (lead_byte st) (S (S (index st)))).
Proof.
  intros H. apply getitem_drop in H as [H0 H]. apply getitem_drop in H as [H1 _].
  unfold scan_step, loop_body. rewrite H0. cbn [mbind outcome_bind].
  change (byte_int Byte.xfd =? value LEAD_INDICATOR) with false.
  change (byte_int Byte.xfd =? value INVALID) with true. cbn match.
  by rewrite H1.
Qed.

Lemma step_dynamic raw st L t rest :
  drop (index st) raw = Byte.xfe :: L :: t :: rest →
  (Z.to_nat (byte_int L) ≤ S (length rest))%nat →
  scan_step raw st
    (mk_state
       (<[param_of (lead_byte st) [t] :=
            Some (int_from_bytes (take (Z.to_nat (byte_int L)) rest))]> (values st))
       (lead_byte st) (S (S (S (index st))) + Z.to_nat (byte_int L))).
Proof.
  intros H Hlen. pose proof (drop_cons_length _ _ _ _ H) as Hraw. simpl in Hraw.
  apply getitem_drop in H as [H0 H]. apply getitem_drop in H as [H1 H].
  apply getitem_drop in H as [H2 H].
  unfold scan_step, loop_body. rewrite H0. cbn [mbind outcome_bind].
  change (byte_int Byte.xfe =? value LEAD_INDICATOR) with false.
  change (byte_int Byte.xfe =? value INVALID) with false.
  change (byte_int Byte.xfe =? value DYNAMIC_VAL) with true. cbn match.
  rewrite H1. cbn [mbind outcome_bind].
  destruct (Nat.ltb_spec (length raw) (S (S (index st)) + Z.to_nat (byte_int L))); [lia|].
  rewrite H2. run. do 3 f_equal.
  unfold slice. rewrite H. cbn [set_bytes value].
  by rewrite (Nat.add_comm (S (S (S (index st))))), Nat.add_sub.
Qed.

Lemma step_dynamic_truncated raw st L rest :
  drop (index st) raw = Byte.xfe :: L :: rest →
  (length rest < Z.to_nat (byte_int L))%nat →
  loop_body raw st = Ok (Return (values st)).
Proof.
  intros H Hlen. pose proof (drop_cons_length _ _ _ _ H) as Hraw. simpl in Hraw.
  apply getitem_drop in H as [H0 H]. apply getitem_drop in H as [H1 H].
  unfold loop_body. rewrite H0. cbn [mbind outcome_bind].
  change (byte_int Byte.xfe =? value LEAD_INDICATOR) with false.
  change (byte_int Byte.xfe =? value INVALID) with false.
  change (byte_int Byte.xfe =? value DYNAMIC_VAL) with true. cbn match.
  rewrite H1. cbn [mbind outcome_bind].
  destruct (Nat.ltb_spec (length raw) (S (S (index st)) + Z.to_nat (byte_int L))); [done|lia].
Qed.

Lemma step_default raw st f x rest :
  drop (index st) raw = f :: x :: rest →
  f ≠ Byte.xff → f ≠ Byte.xfd → f ≠ Byte.xfe →
  scan_step raw st
    (mk_state (<[param_of (lead_byte st) [f] := Some (byte_int x)]> (values st))
       (lead_byte st) (S (S (index st)))).
Proof.
  intros H Hff Hfd Hfe. apply getitem_drop in H as [H0 H]. apply getitem_drop in H as [H1 _].
  unfold scan_step, loop_body. rewrite H0. cbn [mbind outcome_bind].
  change (value LEAD_INDICATOR) with (byte_int Byte.xff).
  change (value INVALID) with (byte_int Byte.xfd).
  change (value DYNAMIC_VAL) with (byte_int Byte.xfe).
  rewrite !marker_eqb_ne by done.
  cbn [mbind outcome_bind]. by rewrite H1.
Qed.

(** ** Decoding scenarios *)

(** C4: the block FF 00 05 0A FD 06 FE 02 07 01 2C decodes to
    {5: 10, 6: None, 7: 300}. *)
Theorem decode_mixed_block :
  _decode_data [Byte.xff; Byte.x00; Byte.x05; Byte.x0a; Byte.xfd; Byte.x06;
                Byte.xfe; Byte.x02; Byte.x07; Byte.x01; Byte.x2c]
  = Ok {[ 5 := Some 10; 6 := None; 7 := Some 300 ]}.
Proof. vm_compute. reflexivity. Qed.

(** C1: the decoder comes to an end on every block, but a block that stops
    after a marker or after a tail byte raises [IndexError]: only the
    length of a dynamic value is checked against the end of the block. *)
Theorem truncated_block_raises :
  (∀ raw_data, _decode_data raw_data ≠ OutOfFuel) ∧
  _decode_data [Byte.xff] = Raise IndexError ∧
  _decode_data [Byte.xfd] = Raise IndexError ∧
  _decode_data [Byte.xfe] = Raise IndexError ∧
  _decode_data [Byte.xfe; Byte.x00] = Raise IndexError ∧
  _decode_data [Byte.x05] = Raise IndexError.
Proof. split; [apply _decode_data_terminates|]. repeat split. Qed.

(** C6: FE 05 01 decodes to the empty mapping, but the test on the length
    of a dynamic value does not count the tail byte: FE 01 07, whose
    only value byte is missing, decodes to {7: 0}, and FE 02 07 01, one
    value byte short, to {7: 1}. *)
Theorem dynamic_length_guard_misses_one_byte :
  _decode_data [Byte.xfe; Byte.x05; Byte.x01] = Ok ∅ ∧
  _decode_data [Byte.xfe; Byte.x01; Byte.x07] = Ok {[ 7 := Some 0 ]} ∧
  _decode_data [Byte.xfe; Byte.x02; Byte.x07; Byte.x01] = Ok {[ 7 := Some 1 ]}.
Proof. repeat split. Qed.

(** ** The convenience accessors *)

Lemma read_param_eq communicate decode self param :
  read_param communicate decode self param =
    params ← read_params communicate decode self [param];
    Ok (match params !! param with
        | Some (Some v) => v
        | _ => 0
        end).
Proof.
  unfold read_param. destruct (read_params _ _ _ _) as [params| |]; [|done..].
  cbn [mbind outcome_bind]. destruct (params !! param) as [[v|]|]; try done.
  cbn. by destruct (Z.eqb_spec v 0) as [->|].
Qed.

Lemma write_param_eq communicate decode self parameter v :
  write_param communicate decode self parameter v =
    decoded ← decoded_response communicate decode self FUNC.RW
                 [Section parameter None; Section v None];
    match decoded !! parameter with
    | Some (Some x) => Ok x
    | Some None => Ok 0
    | None => Raise KeyError
    end.
Proof.
  unfold write_param, decoded_response.
  destruct (_communicate_block _ _ _ _ _) as [r| |]; [|done..]. cbn [mbind outcome_bind].
  destruct (to_bytes r) as [raw| |]; [|done..]. cbn [mbind outcome_bind].
  destruct (_decode_data raw) as [decoded| |]; [|done..]. cbn [mbind outcome_bind].
  unfold mapping_get. destruct (decoded !! parameter) as [[x|]|]; try done.
  cbn. by destruct (Z.eqb_spec x 0) as [->|].
Qed.

(** C8: when the device does not answer, the decoded mapping is empty;
    [read_param] then returns 0, but [write_param] raises [KeyError]. *)
Theorem write_param_missing_key_raises decode :
  decoded_response silent_device decode sample_client_pwd FUNC.RW
    [Section 1 None; Section 5 None] = Ok ∅ ∧
  read_param silent_device decode sample_client_pwd 1 = Ok 0 ∧
  write_param silent_device decode sample_client_pwd 1 5 = Raise KeyError.
Proof. repeat split. Qed.

(** ** Presence is kept throughout the scan *)

Lemma present_insert_Some m p v k : present m k → present (<[p := Some v]> m) k.
Proof.
  intros [x Hx]. unfold present. destruct (decide (p = k)) as [->|Hne].
  - rewrite lookup_insert_eq. eauto.
  - rewrite lookup_insert_ne by done. eauto.
Qed.

Lemma scan_step_present raw st st' k :
  scan_step raw st st' → present (values st) k → present (values st') k.
Proof.
  intros Hs Hk. apply loop_body_Next in Hs as [_ [->|[(p & Hp & ->)|(p & v & ->)]]].
  - done.
  - destruct Hk as [x Hx]. exists x. rewrite lookup_insert_ne; [done|]. intros ->. congruence.
  - by apply present_insert_Some.
Qed.

Lemma loop_body_Return raw st result :
  loop_body raw st = Ok (Return result) → result = values st.
Proof.
  unfold loop_body.
  repeat match goal with
  | |- context [getitem ?l ?i] =>
      destruct (getitem l i); [run| done..]
  | |- context [if ?c then _ else _] => destruct c
  end; try done.
  by intros [= <-].
Qed.

Lemma scan_from_present raw st result k :
  scan_from raw st = Ok result → present (values st) k → present result k.
Proof.
  remember (length raw - index st)%nat as n eqn:Hn.
  revert st Hn. induction n as [n IH] using lt_wf_ind. intros st Hn Hscan Hk.
  destruct (Nat.lt_ge_cases (index st) (length raw)) as [Hlt|Hge].
  - rewrite scan_from_body in Hscan by done.
    destruct (loop_body raw st) as [[st'|r]| |] eqn:E; try done; cbn in Hscan.
    + pose proof (loop_body_Next _ _ _ E) as [Hadv _].
      eapply (IH (length raw - index st')%nat); [lia|done|done|].
      by eapply scan_step_present.
    + injection Hscan as <-. by rewrite (loop_body_Return _ _ _ E).
  - rewrite scan_from_done in Hscan by done. by injection Hscan as <-.
Qed.

(** C10: over any number of iterations of the decoder loop, and in the
    mapping finally returned, a parameter id that is mapped to a value stays
    mapped to a value.  An FD marker for an id already in the mapping leaves
    the mapping as it is; a default pair and a dynamic value whose length
    passes the test overwrite the entry of their id. *)
Theorem present_value_never_becomes_absent raw_data st st' :
  rtc (scan_step raw_data) st st' →
  (∀ k, present (values st) k → present (values st') k) ∧
  (∀ result k, scan_from raw_data st' = Ok result →
     present (values st') k → present result k) ∧
  (∀ t rest,
     drop (index st') raw_data = Byte.xfd :: t :: rest →
     is_Some (values st' !! param_of (lead_byte st') [t]) →
     scan_step raw_data st' (mk_state (values st') (lead_byte st') (S (S (index st'))))) ∧
  (∀ f x rest,
     drop (index st') raw_data = f :: x :: rest →
     f ≠ Byte.xff → f ≠ Byte.xfd → f ≠ Byte.xfe →
     scan_step raw_data st'
       (mk_state (<[param_of (lead_byte st') [f] := Some (byte_int x)]> (values st'))
          (lead_byte st') (S (S (index st'))))) ∧
  (∀ L t rest,
     drop (index st') raw_data = Byte.xfe :: L :: t :: rest →
     (Z.to_nat (byte_int L) ≤ S (length rest))%nat →
     scan_step raw_data st'
       (mk_state
          (<[param_of (lead_byte st') [t] :=
               Some (int_from_bytes (take (Z.to_nat (byte_int L)) rest))]> (values st'))
          (lead_byte st') (S (S (S (index st'))) + Z.to_nat (byte_int L)))).
Proof.
  intros Hsteps. split_and!.
  - induction Hsteps as [|st1 st2 st3 H12 _ IH]; [done|].
    intros k Hk. apply IH. by eapply scan_step_present.
  - intros result k. apply scan_from_present.
  - intros t rest Hd [v Hv]. pose proof (step_invalid _ _ _ _ Hd) as Hs.
    by rewrite Hv in Hs.
  - intros f x rest. apply step_default.
  - intros L t rest. apply step_dynamic.
Qed.

Lemma present_value_never_becomes_absent_witness :
  rtc (scan_step sample_block) initial_state sample_state ∧
  present (values sample_state) 5 ∧
  scan_step sample_block sample_state (mk_state {[ 5 := Some 10 ]} [Byte.x00] 6) ∧
  scan_from sample_block sample_state = Ok {[ 5 := Some 10 ]}.
Proof.
  assert (Hreach : rtc (scan_step sample_block) initial_state sample_state).
  { apply (rtc_l _ _ (mk_state ∅ [Byte.x00] 2)); [by vm_compute|].
    apply rtc_once. by vm_compute. }
  destruct (present_value_never_becomes_absent sample_block initial_state sample_state Hreach)
    as (_ & _ & Hinv & _ & _).
  split_and!; [exact Hreach|by exists 10| |reflexivity].
  apply (Hinv Byte.x05 []); [reflexivity|by exists (Some 10)].
Defined.

(** ** Grouping parameter ids by lead byte *)

Lemma lead_tail_range k :
  0 <= k < 65536 → 0 <= lead_of k < 256 ∧ 0 <= tail_of k < 256 ∧
  lead_of k * 256 + tail_of k = k.
Proof.
  intros Hk. unfold lead_of, tail_of.
  pose proof (Z.mod_pos_bound k 256). pose proof (Z.div_mod k 256).
  assert (0 <= k / 256 < 256) by (split; [apply Z.div_pos; lia|apply Z.div_lt_upper_bound; lia]).
  lia.
Qed.

Lemma lead_tail_of l t :
  0 <= l → 0 <= t < 256 → lead_of (l * 256 + t) = l ∧ tail_of (l * 256 + t) = t.
Proof.
  intros Hl Ht. unfold lead_of, tail_of. split.
  - symmetry. apply Z.div_unique with t; lia.
  - symmetry. apply Z.mod_unique with l; lia.
Qed.

Lemma to_bytes_param k :
  0 <= k < 65536 →
  to_bytes (Section k (Some 2)) = Ok [int_byte (lead_of k); int_byte (tail_of k)].
Proof.
  intros Hk. rewrite to_bytes_sized by (change (256 ^ 2) with 65536; lia).
  change (Z.to_nat 2) with 2%nat. cbn [be_digits app].
  destruct (lead_tail_range k Hk) as (Hl & _ & _). unfold lead_of, tail_of in *.
  by rewrite (Z.mod_small (k / 256)) by lia.
Qed.

Lemma dict_in_set l l' v d : dict_in l (dict_set l' v d) = dict_in l d || (l' =? l).
Proof.
  induction d as [|[k ts] d IH]; simpl; [by rewrite orb_false_r|].
  destruct (Z.eqb_spec k l') as [->|Hne]; simpl.
  - destruct (Z.eqb_spec l' l); simpl; [done|]. by rewrite orb_false_r.
  - rewrite IH. by rewrite orb_assoc.
Qed.

Lemma dict_get_set l v d : dict_get l (dict_set l v d) = Ok v.
Proof.
  induction d as [|[k ts] d IH]; simpl; [by rewrite Z.eqb_refl|].
  destruct (Z.eqb_spec k l) as [->|Hne]; simpl; [by rewrite Z.eqb_refl|].
  destruct (Z.eqb_spec k l); [done|]. apply IH.
Qed.

Lemma dict_get_in l d : dict_in l d = true → dict_get l d = Ok (tails_of l d).
Proof.
  unfold tails_of. induction d as [|[k ts] d IH]; simpl; [done|].
  destruct (Z.eqb_spec k l); simpl; [done|]. apply IH.
Qed.

Lemma dict_in_false_tails l d : dict_in l d = false → tails_of l d = [].
Proof.
  unfold tails_of. induction d as [|[k ts] d IH]; simpl; [done|].
  destruct (Z.eqb_spec k l); simpl; [done|]. apply IH.
Qed.

Lemma dict_set_set l v w d : dict_set l w (dict_set l v d) = dict_set l w d.
Proof.
  induction d as [|[k ts] d IH]; simpl; [by rewrite Z.eqb_refl|].
  destruct (Z.eqb_spec k l) as [->|Hne]; simpl; [by rewrite Z.eqb_refl|].
  destruct (Z.eqb_spec k l); [done|]. by rewrite IH.
Qed.

Lemma dict_set_add_tail l t d : dict_set l (tails_of l d ++ [t]) d = add_tail l t d.
Proof.
  unfold tails_of. induction d as [|[k ts] d IH]; simpl; [done|].
  destruct (Z.eqb_spec k l); simpl; [done|]. by rewrite IH.
Qed.

(** The body of the grouping loop adds the tail to the group of its lead. *)
Lemma group_body l t d :
  let d1 := if negb (dict_in l d) then dict_set l [] d else d in
  dict_get l d1 = Ok (tails_of l d) ∧ dict_set l (tails_of l d ++ [t]) d1 = add_tail l t d.
Proof.
  destruct (dict_in l d) eqn:E; cbn [negb].
  - split; [by apply dict_get_in|apply dict_set_add_tail].
  - split; [rewrite (dict_in_false_tails _ _ E); apply dict_get_set|].
    rewrite dict_set_set. apply dict_set_add_tail.
Qed.

Lemma group_by_lead_eq params d :
  Forall (fun k => 0 <= k < 65536) params →
  group_by_lead params d =
    Ok (foldl (fun d param => add_tail (lead_of param) (tail_of param) d) d params).
Proof.
  intros H. revert d. induction H as [|k params Hk _ IH]; intros d; [done|].
  cbn [group_by_lead foldl]. rewrite to_bytes_param by done.
  cbn [mbind outcome_bind getitem lookup list_lookup].
  destruct (lead_tail_range k Hk) as (Hl & Ht & _).
  rewrite !byte_int_byte by done.
  destruct (group_body (lead_of k) (tail_of k) d) as [H1 H2]. cbv zeta in H1, H2.
  rewrite H1. cbn [mbind outcome_bind]. rewrite H2. apply IH.
Qed.

Lemma tails_of_add_tail l l' t d :
  tails_of l (add_tail l' t d) =
    if decide (l' = l) then tails_of l d ++ [t] else tails_of l d.
Proof.
  unfold tails_of. induction d as [|[k ts] d IH]; simpl.
  - destruct (Z.eqb_spec l' l); by case_decide.
  - destruct (Z.eqb_spec k l') as [->|Hne]; simpl.
    + destruct (Z.eqb_spec l' l); by case_decide.
    + destruct (Z.eqb_spec k l) as [->|Hne']; [by case_decide|]. apply IH.
Qed.

Lemma keys_add_tail l t d :
  (add_tail l t d).*1 = if dict_in l d then d.*1 else d.*1 ++ [l].
Proof.
  induction d as [|[k ts] d IH]; [done|].
  cbn [add_tail]. destruct (Z.eqb_spec k l) as [->|Hne].
  - rewrite !fmap_cons. cbn [dict_in fst]. by rewrite Z.eqb_refl.
  - rewrite !fmap_cons, IH. cbn [dict_in fst].
    destruct (Z.eqb_spec k l); [done|]. cbn [orb]. by destruct (dict_in l d).
Qed.

Lemma dict_in_elem l d : dict_in l d = true ↔ l ∈ d.*1.
Proof.
  induction d as [|[k ts] d IH].
  - split; [done|]. by intros ?%elem_of_nil.
  - rewrite fmap_cons. cbn [dict_in fst].
    rewrite elem_of_cons, orb_true_iff, IH, Z.eqb_eq.
    split; (intros [?|?]; [left; congruence|by right]).
Qed.

Lemma tails_of_elem l ts d : NoDup d.*1 → (l, ts) ∈ d → tails_of l d = ts.
Proof.
  unfold tails_of. induction d as [|[k ts'] d IH]; [by intros _ ?%elem_of_nil|].
  rewrite fmap_cons. cbn [dict_get fst].
  intros [Hk Hnd]%NoDup_cons [[= -> ->]|Hin]%elem_of_cons.
  - by rewrite Z.eqb_refl.
  - destruct (Z.eqb_spec k l) as [->|Hne]; [|by apply IH].
    exfalso. apply Hk. apply list_elem_of_fmap. by exists (l, ts).
Qed.

Lemma elem_tails_of l d : l ∈ d.*1 → (l, tails_of l d) ∈ d.
Proof.
  unfold tails_of. induction d as [|[k ts] d IH]; [by intros ?%elem_of_nil|].
  rewrite fmap_cons. cbn [dict_get fst].
  destruct (Z.eqb_spec k l) as [->|Hne]; [intros _; apply elem_of_cons; by left|].
  intros [?|Hin]%elem_of_cons; [done|]. apply elem_of_cons. right. by apply IH.
Qed.

(** The groups of a list of ids: distinct leads, the leads of the ids, and
    under each lead the tails of its ids in the order of the list. *)
Lemma groups_fold_spec params d :
  let d' := foldl (fun d param => add_tail (lead_of param) (tail_of param) d) d params in
  (NoDup d.*1 → NoDup d'.*1) ∧
  (∀ l, l ∈ d'.*1 ↔ l ∈ d.*1 ∨ ∃ k, k ∈ params ∧ lead_of k = l) ∧
  (∀ l, tails_of l d' = tails_of l d ++ (tail_of <$> filter (fun k => lead_of k = l) params)).
Proof.
  revert d. induction params as [|k params IH]; intros d; cbn [foldl].
  - split_and!; [done| |intros l; by rewrite app_nil_r].
    intros l. split; [by left|]. intros [?|(k & ?%elem_of_nil & _)]; done.
  - destruct (IH (add_tail (lead_of k) (tail_of k) d)) as (IH1 & IH2 & IH3).
    split_and!.
    + intros Hnd. apply IH1. rewrite keys_add_tail.
      destruct (dict_in (lead_of k) d) eqn:E; [done|].
      apply NoDup_app. split_and!; [done| |apply NoDup_singleton].
      intros x Hx ->%list_elem_of_singleton. apply dict_in_elem in Hx. congruence.
    + intros l. rewrite IH2, keys_add_tail.
      destruct (dict_in (lead_of k) d) eqn:E.
      * apply dict_in_elem in E. split.
        -- intros [?|(k' & Hk' & <-)]; [by left|]. right. exists k'. split; [|done].
           apply elem_of_cons. by right.
        -- intros [?|(k' & [->|Hk']%elem_of_cons & <-)]; [by left|by left|].
           right. by exists k'.
      * rewrite elem_of_app, list_elem_of_singleton. split.
        -- intros [[?| ->]|(k' & Hk' & <-)]; [by left| |].
           ++ right. exists k. split; [apply elem_of_cons; by left|done].
           ++ right. exists k'. split; [apply elem_of_cons; by right|done].
        -- intros [?|(k' & [->|Hk']%elem_of_cons & <-)]; [by left; left|by left; right|].
           right. by exists k'.
    + intros l. rewrite IH3, tails_of_add_tail, filter_cons.
      case_decide as E; [|done]. by rewrite fmap_cons, <- app_assoc.
Qed.

(** ** The encoder *)

Lemma sorted_params_elem m k : k ∈ sorted_params m ↔ is_Some (m !! k).
Proof.
  unfold sorted_params. rewrite merge_sort_Permutation, list_elem_of_fmap. split.
  - intros ([k' v] & -> & Hin). apply elem_of_map_to_list in Hin. by exists v.
  - intros [v Hv]. exists (k, v). split; [done|]. by apply elem_of_map_to_list.
Qed.

Lemma StronglySorted_le_lt l : StronglySorted Z.le l → NoDup l → StronglySorted Z.lt l.
Proof.
  induction 1 as [|x l Hs IH Hall]; intros Hnd; [constructor|].
  apply NoDup_cons in Hnd as [Hx Hnd]. constructor; [by apply IH|].
  rewrite Forall_forall in Hall |- *. intros y Hy.
  assert (x ≠ y) by (by intros ->). specialize (Hall y Hy). lia.
Qed.

Lemma sorted_params_sorted m : StronglySorted Z.lt (sorted_params m).
Proof.
  apply StronglySorted_le_lt.
  - apply StronglySorted_merge_sort; apply _.
  - unfold sorted_params. rewrite merge_sort_Permutation. apply NoDup_fst_map_to_list.
Qed.

Lemma StronglySorted_filter_lt (P : Z → Prop) `{!∀ x, Decision (P x)} l :
  StronglySorted Z.lt l → StronglySorted Z.lt (filter P l).
Proof.
  induction 1 as [|x l Hs IH Hall]; [constructor|].
  rewrite filter_cons. case_decide; [|done]. constructor; [done|].
  rewrite Forall_forall in Hall |- *. intros y [_ Hy]%list_elem_of_filter. by apply Hall.
Qed.

Lemma tails_sorted lead l :
  StronglySorted Z.lt l → Forall (fun k => lead_of k = lead) l →
  StronglySorted Z.lt (tail_of <$> l).
Proof.
  induction 1 as [|x l Hs IH Hall]; intros Hlead; [constructor|].
  apply Forall_cons in Hlead as [Hx Hlead]. rewrite fmap_cons.
  constructor; [by apply IH|].
  rewrite Forall_forall in Hall, Hlead |- *.
  intros t (y & -> & Hy)%list_elem_of_fmap.
  specialize (Hall y Hy). specialize (Hlead y Hy). unfold lead_of, tail_of in *.
  pose proof (Z.div_mod x 256). pose proof (Z.div_mod y 256). lia.
Qed.

(** The groups of the sorted ids of a mapping with 16-bit keys. *)
Lemma groups_of_params (m : gmap Z (option Z)) :
  (∀ k, is_Some (m !! k) → 0 <= k < 65536) →
  NoDup (groups_of (sorted_params m)).*1 ∧
  (∀ l, l ∈ (groups_of (sorted_params m)).*1 ↔ ∃ k, is_Some (m !! k) ∧ lead_of k = l) ∧
  (∀ l ts, (l, ts) ∈ groups_of (sorted_params m) →
     0 <= l < 256 ∧ StronglySorted Z.lt ts ∧
     ∀ t, t ∈ ts ↔ 0 <= t < 256 ∧ is_Some (m !! (l * 256 + t))).
Proof.
  intros Hkeys. unfold groups_of.
  destruct (groups_fold_spec (sorted_params m) []) as (Hnd & Hleads & Htails).
  cbv zeta in *. specialize (Hnd (NoDup_nil_2)).
  assert (Hl : ∀ l, l ∈ (groups_of (sorted_params m)).*1 ↔ ∃ k, is_Some (m !! k) ∧ lead_of k = l).
  { intros l. unfold groups_of. rewrite Hleads. split.
    - intros [?%elem_of_nil|(k & Hk%sorted_params_elem & <-)]; [done|]. by exists k.
    - intros (k & Hk%sorted_params_elem & <-). right. by exists k. }
  split_and!; [done|exact Hl|].
  intros l ts Hin.
  assert (Hlin : l ∈ (groups_of (sorted_params m)).*1).
  { apply list_elem_of_fmap. by exists (l, ts). }
  apply Hl in Hlin as (k0 & Hk0 & <-).
  destruct (lead_tail_range k0 (Hkeys _ Hk0)) as (Hl0 & _ & _).
  pose proof (tails_of_elem _ _ _ Hnd Hin) as Hts.
  rewrite Htails in Hts. cbn [tails_of dict_get app] in Hts. subst ts.
  split_and!; [lia..| |].
  - eapply tails_sorted.
    + apply StronglySorted_filter_lt, sorted_params_sorted.
    + apply Forall_forall. by intros k [? _]%list_elem_of_filter.
  - intros t. rewrite list_elem_of_fmap. split.
    + intros (k & -> & [Hlk Hk%sorted_params_elem]%list_elem_of_filter).
      destruct (lead_tail_range k (Hkeys _ Hk)) as (_ & Ht & Heq).
      rewrite <- Hlk, Heq. done.
    + intros [Ht Hk]. exists (lead_of k0 * 256 + t).
      destruct (lead_tail_of (lead_of k0) t) as [Hl' Ht']; [lia|done|].
      split; [done|]. apply list_elem_of_filter. split; [done|].
      by apply sorted_params_elem.
Qed.

Lemma int_from_lead_tail l t :
  0 <= l < 256 → 0 <= t < 256 →
  value (set_bytes (Packet.Template 2) ([int_byte l] ++ [int_byte t])) = l * 256 + t.
Proof.
  intros Hl Ht. cbn [set_bytes value app]. unfold int_from_bytes. cbn [foldl].
  rewrite !byte_int_byte by done. lia.
Qed.

Lemma emit_tails_eq m lead tails acc :
  0 <= lead < 256 →
  (∀ t, t ∈ tails → 0 <= t < 256 ∧ is_Some (m !! (lead * 256 + t))) →
  emit_tails m lead tails acc =
    Ok (acc ++ flat_map (fun tail =>
                 tail_fields (default None (m !! (lead * 256 + tail))) tail) tails).
Proof.
  intros Hl. revert acc. induction tails as [|t tails IH]; intros acc Hts.
  - cbn. by rewrite app_nil_r.
  - destruct (Hts t) as [Ht [v Hv]]; [at_head|].
    cbn [emit_tails flat_map]. rewrite !to_bytes_byte by done.
    cbn [mbind outcome_bind]. rewrite int_from_lead_tail by done.
    unfold mapping_get. rewrite Hv. cbn [mbind outcome_bind from_option id].
    destruct v as [v|]; cbn [tail_fields]; rewrite IH, <- ?app_assoc; try done;
      in_rest Hts.
Qed.

Lemma emit_groups_eq m groups acc :
  (∀ l ts, (l, ts) ∈ groups →
     0 <= l < 256 ∧ ∀ t, t ∈ ts → 0 <= t < 256 ∧ is_Some (m !! (l * 256 + t))) →
  emit_groups m groups acc = Ok (acc ++ block_fields m groups).
Proof.
  revert acc. induction groups as [|[l ts] groups IH]; intros acc Hg.
  - cbn. by rewrite app_nil_r.
  - destruct (Hg l ts) as [Hl Hts]; [at_head|].
    cbn [emit_groups]. rewrite emit_tails_eq by done. cbn [mbind outcome_bind].
    rewrite IH by (in_rest Hg).
    unfold block_fields. cbn [flat_map]. by rewrite <- !app_assoc.
Qed.

(** The encoder lays out the groups of the sorted ids. *)
Lemma _construct_command_block_eq (m : gmap Z (option Z)) :
  (∀ k, is_Some (m !! k) → 0 <= k < 65536) →
  _construct_command_block m = Ok (block_fields m (groups_of (sorted_params m))).
Proof.
  intros Hkeys. unfold _construct_command_block.
  rewrite group_by_lead_eq.
  2:{ apply Forall_forall. intros k Hk%sorted_params_elem. by apply Hkeys. }
  cbn [mbind outcome_bind]. fold (groups_of (sorted_params m)).
  rewrite emit_groups_eq; [done|].
  intros l ts Hin. destruct (groups_of_params m Hkeys) as (_ & _ & Hg).
  destruct (Hg l ts Hin) as (Hl & _ & Hts). split; [done|]. intros t. apply Hts.
Qed.

Lemma packet_to_bytes_app_eq p q :
  packet_to_bytes (p ++ q) =
    b1 ← packet_to_bytes p; b2 ← packet_to_bytes q; mret (b1 ++ b2).
Proof.
  induction p as [|s p IH]; cbn [app packet_to_bytes].
  - cbn. by destruct (packet_to_bytes q).
  - destruct (to_bytes s) as [b| |]; [|done..]. cbn [mbind outcome_bind].
    rewrite IH. destruct (packet_to_bytes p) as [b1| |]; [|done..]. cbn [mbind outcome_bind].
    destruct (packet_to_bytes q) as [b2| |]; [|done..]. cbn. by rewrite app_assoc.
Qed.

Lemma block_fields_cons m l ts groups :
  block_fields m ((l, ts) :: groups) =
    ([LEAD_INDICATOR; Section l None]
     ++ flat_map (fun tail => tail_fields (default None (m !! (l * 256 + tail))) tail) ts)
    ++ block_fields m groups.
Proof. reflexivity. Qed.

Lemma read_block_fields_cons l ts groups :
  read_block_fields ((l, ts) :: groups) =
    ([LEAD_INDICATOR; Section l None] ++ map (fun tail => Section tail None) ts)
    ++ read_block_fields groups.
Proof. reflexivity. Qed.

Lemma read_block_fields_eq m groups :
  (∀ l ts t, (l, ts) ∈ groups → t ∈ ts → m !! (l * 256 + t) = Some None) →
  block_fields m groups = read_block_fields groups.
Proof.
  induction groups as [|[l ts] groups IH]; intros Hg; [done|].
  rewrite block_fields_cons, read_block_fields_cons.
  rewrite IH by (in_rest Hg).
  do 2 f_equal.
  assert (Hts : ∀ t, t ∈ ts → m !! (l * 256 + t) = Some None).
  { intros t. apply Hg, elem_of_cons. by left. }
  clear -Hts. induction ts as [|t ts IHts]; [done|].
  cbn [flat_map map]. rewrite (Hts t) by (apply elem_of_cons; by left).
  cbn [from_option id tail_fields app]. f_equal.
  apply IHts. intros t' Ht'. apply Hts, elem_of_cons. by right.
Qed.

Lemma packet_to_bytes_tails ts :
  (∀ t, t ∈ ts → 0 <= t < 256) →
  packet_to_bytes (map (fun tail => Section tail None) ts) = Ok (map int_byte ts).
Proof.
  induction ts as [|t ts IH]; intros Hts; [done|].
  cbn [map packet_to_bytes]. rewrite to_bytes_byte by (apply Hts, elem_of_cons; by left).
  rewrite IH by (in_rest Hts). done.
Qed.

Lemma packet_to_bytes_read_block groups :
  (∀ l ts, (l, ts) ∈ groups → 0 <= l < 256 ∧ ∀ t, t ∈ ts → 0 <= t < 256) →
  packet_to_bytes (read_block_fields groups) = Ok (read_block_bytes groups).
Proof.
  induction groups as [|[l ts] groups IH]; intros Hg; [done|].
  destruct (Hg l ts) as [Hl Hts]; [at_head|].
  rewrite read_block_fields_cons, packet_to_bytes_app_eq.
  rewrite IH by (in_rest Hg).
  cbn [app packet_to_bytes]. rewrite to_bytes_byte by done.
  rewrite packet_to_bytes_tails by done. done.
Qed.

(** C3: for a mapping whose keys are 16-bit ids and whose values are all
    absent, the encoder emits, for groups with pairwise distinct leads that
    are exactly the leads of the ids, the marker FF and the lead byte of the
    group followed by the tail bytes of the group, which are in strictly
    ascending order and are exactly the tails of the ids with that lead. *)
Theorem read_request_groups_by_lead (m : gmap Z (option Z)) :
  map_Forall (fun k v => 0 <= k < 65536 ∧ v = None) m →
  ∃ groups,
    _construct_command_block m = Ok (read_block_fields groups) ∧
    packet_to_bytes (read_block_fields groups) = Ok (read_block_bytes groups) ∧
    NoDup groups.*1 ∧
    (∀ lead, lead ∈ groups.*1 ↔ ∃ k, is_Some (m !! k) ∧ lead_of k = lead) ∧
    (∀ lead tails, (lead, tails) ∈ groups →
       0 <= lead < 256 ∧ StronglySorted Z.lt tails ∧
       ∀ tail, tail ∈ tails ↔ 0 <= tail < 256 ∧ is_Some (m !! (lead * 256 + tail))).
Proof.
  intros Hm.
  assert (Hkeys : ∀ k, is_Some (m !! k) → 0 <= k < 65536).
  { intros k [v Hv]. by destruct (Hm k v Hv). }
  destruct (groups_of_params m Hkeys) as (Hnd & Hleads & Hg).
  exists (groups_of (sorted_params m)). split_and!; [|
    |done|done|done].
  - rewrite _construct_command_block_eq by done. f_equal.
    apply read_block_fields_eq. intros l ts t Hin Ht.
    destruct (Hg l ts Hin) as (_ & _ & Hts). apply Hts in Ht as [_ [v Hv]].
    destruct (Hm _ _ Hv) as [_ ->]. done.
  - apply packet_to_bytes_read_block. intros l ts Hin.
    destruct (Hg l ts Hin) as (Hl & _ & Hts). split; [done|]. intros t Ht. by apply Hts.
Qed.

Lemma read_request_groups_by_lead_witness :
  ∃ groups,
    _construct_command_block {[ 0x0102 := None; 0x0101 := None; 0x0005 := None ]}
      = Ok (read_block_fields groups) ∧
    packet_to_bytes (read_block_fields groups)
      = Ok [Byte.xff; Byte.x00; Byte.x05; Byte.xff; Byte.x01; Byte.x01; Byte.x02].
Proof.
  destruct (read_request_groups_by_lead {[ 0x0102 := None; 0x0101 := None; 0x0005 := None ]})
    as (groups & Hb & Hbytes & _).
  - compute_done.
  - exists groups. split; [exact Hb|].
    assert (E : Ok (read_block_fields groups)
                = Ok (read_block_fields [(0, [5]); (1, [1; 2])])).
    { rewrite <- Hb. by vm_compute. }
    injection E as ->. reflexivity.
Defined.

(** ** Decoding what the encoder wrote *)

Lemma write_block_bytes_cons m l ts groups :
  write_block_bytes m ((l, ts) :: groups) =
    (Byte.xff :: int_byte l
     :: flat_map (fun tail =>
          dynamic_bytes tail (default 0 (default None (m !! (l * 256 + tail))))) ts)
    ++ write_block_bytes m groups.
Proof. reflexivity. Qed.

Lemma auto_size_writable x : 0 <= x < 256 ^ 255 → 0 <= auto_size x < 256.
Proof.
  intros Hx. pose proof (auto_size_pos x). pose proof (auto_size_le x 255). lia.
Qed.

Lemma packet_to_bytes_dynamic t x :
  0 <= t < 256 → 0 <= x < 256 ^ 255 →
  packet_to_bytes (tail_fields (Some x) t) = Ok (dynamic_bytes t x).
Proof.
  intros Ht Hx. pose proof (auto_size_writable x Hx).
  cbn [tail_fields packet_to_bytes].
  change (to_bytes DYNAMIC_VAL) with (Ok [Byte.xfe] : outcome pybytes).
  change (byte_size (Section x None)) with (auto_size x).
  rewrite (to_bytes_byte (auto_size x)), (to_bytes_byte t) by done.
  rewrite to_bytes_auto by lia.
  run. by rewrite app_nil_r.
Qed.

Lemma packet_to_bytes_write_tails m l ts :
  (∀ t, t ∈ ts → writable m l t) →
  packet_to_bytes
    (flat_map (fun tail => tail_fields (default None (m !! (l * 256 + tail))) tail) ts)
  = Ok (flat_map (fun tail =>
          dynamic_bytes tail (default 0 (default None (m !! (l * 256 + tail))))) ts).
Proof.
  induction ts as [|t ts IH]; intros Hts; [done|].
  destruct (Hts t) as (Ht & x & Hx & Hr); [at_head|].
  cbn [flat_map]. rewrite packet_to_bytes_app_eq, Hx. cbn [from_option id].
  rewrite packet_to_bytes_dynamic by done.
  rewrite IH by (in_rest Hts). done.
Qed.

Lemma packet_to_bytes_write_block m groups :
  (∀ l ts, (l, ts) ∈ groups → 0 <= l < 256 ∧ ∀ t, t ∈ ts → writable m l t) →
  packet_to_bytes (block_fields m groups) = Ok (write_block_bytes m groups).
Proof.
  induction groups as [|[l ts] groups IH]; intros Hg; [done|].
  destruct (Hg l ts) as [Hl Hts]; [at_head|].
  rewrite block_fields_cons, write_block_bytes_cons, !packet_to_bytes_app_eq.
  rewrite IH by (in_rest Hg).
  rewrite packet_to_bytes_write_tails by done.
  cbn [packet_to_bytes]. rewrite to_bytes_byte by done. done.
Qed.

Lemma param_of_lead_tail l t :
  0 <= l < 256 → 0 <= t < 256 → param_of [int_byte l] [int_byte t] = l * 256 + t.
Proof. apply int_from_lead_tail. Qed.

Lemma drop_cons_lt {A} (l : list A) i x rest :
  drop i l = x :: rest → (i < length l)%nat.
Proof. intros H. apply drop_cons_length in H. lia. Qed.

(** One written parameter is read back as the value that was written. *)
Lemma scan_dynamic raw st l t x rest :
  lead_byte st = [int_byte l] →
  0 <= l < 256 → 0 <= t < 256 → 0 <= x < 256 ^ 255 →
  drop (index st) raw = dynamic_bytes t x ++ rest →
  ∃ st',
    scan_from raw st = scan_from raw st' ∧
    lead_byte st' = [int_byte l] ∧
    drop (index st') raw = rest ∧
    values st' = <[l * 256 + t := Some x]> (values st).
Proof.
  intros Hlead Hl Ht Hx Hd. pose proof (auto_size_writable x Hx) as Hn.
  set (n := Z.to_nat (auto_size x)).
  assert (HL : Z.to_nat (byte_int (int_byte (auto_size x))) = n).
  { by rewrite byte_int_byte. }
  unfold dynamic_bytes in Hd. cbn [app] in Hd. fold n in Hd.
  pose proof (step_dynamic raw st _ _ _ Hd) as Hs.
  rewrite HL in Hs. specialize (Hs ltac:(rewrite length_app, length_be_digits; lia)).
  eexists. split; [apply scan_from_step; [by eapply drop_cons_lt|exact Hs]|].
  cbn [lead_byte index values]. split_and!; [done| |].
  - replace (S (S (S (index st))) + n)%nat with (index st + (3 + n))%nat by lia.
    rewrite <- drop_drop, Hd. cbn [drop Nat.add].
    rewrite drop_app_length'; [done|by rewrite length_be_digits].
  - rewrite Hlead, param_of_lead_tail by done. do 2 f_equal.
    rewrite take_app_length' by (by rewrite length_be_digits).
    rewrite int_from_be_digits. subst n. rewrite Z2Nat.id by lia.
    apply Z.mod_small. split; [lia|]. apply auto_size_fits. lia.
Qed.

Lemma insert_known_subseteq (vals m : gmap Z (option Z)) k v :
  vals ⊆ m → m !! k = Some v → vals ⊆ <[k := v]> vals ∧ <[k := v]> vals ⊆ m.
Proof.
  intros Hsub Hk. split; [|by apply insert_subseteq_l].
  destruct (vals !! k) as [v'|] eqn:E; [|by apply insert_subseteq].
  pose proof (lookup_weaken _ _ _ _ E Hsub) as Hv. rewrite Hk in Hv. injection Hv as ->.
  by rewrite insert_id.
Qed.

Lemma scan_tails raw m l ts : ∀ st rest,
  0 <= l < 256 →
  lead_byte st = [int_byte l] →
  (∀ t, t ∈ ts → writable m l t) →
  values st ⊆ m →
  drop (index st) raw =
    flat_map (fun tail =>
      dynamic_bytes tail (default 0 (default None (m !! (l * 256 + tail))))) ts ++ rest →
  ∃ st',
    scan_from raw st = scan_from raw st' ∧
    lead_byte st' = [int_byte l] ∧
    drop (index st') raw = rest ∧
    values st ⊆ values st' ∧ values st' ⊆ m ∧
    ∀ t, t ∈ ts → is_Some (values st' !! (l * 256 + t)).
Proof.
  induction ts as [|t ts IH]; intros st rest Hl Hlead Hts Hsub Hd.
  - exists st. split_and!; try done. by intros t ?%elem_of_nil.
  - destruct (Hts t) as (Ht & x & Hx & Hr); [at_head|].
    cbn [flat_map] in Hd. rewrite Hx in Hd. cbn [from_option id] in Hd.
    rewrite <- app_assoc in Hd.
    destruct (scan_dynamic _ _ _ _ _ _ Hlead Hl Ht Hr Hd) as (st1 & Hs1 & Hl1 & Hd1 & Hv1).
    destruct (insert_known_subseteq _ _ _ _ Hsub Hx) as [Hmono Hsub1].
    rewrite <- Hv1 in Hmono, Hsub1.
    destruct (IH st1 rest Hl Hl1) as (st' & Hs' & Hl' & Hd' & Hmono' & Hsub' & Hcov);
      [in_rest Hts|done|done|].
    exists st'. split_and!; [congruence|done|done|by etrans|done|].
    intros t' [->|Ht']%elem_of_cons; [|by apply Hcov].
    exists (Some x). eapply lookup_weaken; [|exact Hmono'].
    rewrite Hv1. apply lookup_insert_eq.
Qed.

Lemma scan_groups raw m groups : ∀ st rest,
  (∀ l ts, (l, ts) ∈ groups → 0 <= l < 256 ∧ ∀ t, t ∈ ts → writable m l t) →
  values st ⊆ m →
  drop (index st) raw = write_block_bytes m groups ++ rest →
  ∃ st',
    scan_from raw st = scan_from raw st' ∧
    drop (index st') raw = rest ∧
    values st ⊆ values st' ∧ values st' ⊆ m ∧
    ∀ l ts t, (l, ts) ∈ groups → t ∈ ts → is_Some (values st' !! (l * 256 + t)).
Proof.
  induction groups as [|[l ts] groups IH]; intros st rest Hg Hsub Hd.
  - exists st. split_and!; try done. by intros l ts t ?%elem_of_nil.
  - destruct (Hg l ts) as [Hl Hts]; [at_head|].
    rewrite write_block_bytes_cons, <- app_assoc in Hd. cbn [app] in Hd.
    pose proof (step_lead _ _ _ _ Hd) as Hstep.
    pose proof (scan_from_step _ _ _ (drop_cons_lt _ _ _ _ Hd) Hstep) as Hs0.
    apply getitem_drop in Hd as [_ Hd]. apply getitem_drop in Hd as [_ Hd].
    set (st0 := mk_state (values st) [int_byte l] (S (S (index st)))) in *.
    destruct (scan_tails raw m l ts st0 _ Hl eq_refl Hts Hsub Hd)
      as (st1 & Hs1 & _ & Hd1 & Hmono1 & Hsub1 & Hcov1).
    destruct (IH st1 rest) as (st' & Hs' & Hd' & Hmono' & Hsub' & Hcov');
      [in_rest Hg|done|done|].
    exists st'. split_and!; [congruence|done|by etrans|done|].
    intros l' ts' t [[= -> ->]|Hin]%elem_of_cons Ht; [|by eapply Hcov'].
    destruct (Hcov1 t Ht) as [v Hv]. exists v. by eapply lookup_weaken.
Qed.

Lemma scan_from_end raw st : drop (index st) raw = [] → scan_from raw st = Ok (values st).
Proof.
  intros H. apply scan_from_done. pose proof (length_drop raw (index st)) as Hl.
  rewrite H in Hl. simpl in Hl. lia.
Qed.

(** C5, for values of at most 255 bytes: what the encoder emits for a
    mapping from 16-bit ids to non-negative values below 256^255 decodes to
    that mapping again. *)
Theorem write_block_round_trip (m : gmap Z Z) :
  map_Forall (fun k x => 0 <= k < 65536 ∧ 0 <= x < 256 ^ 255) m →
  ∃ block raw_data,
    _construct_command_block (Some <$> m) = Ok block ∧
    packet_to_bytes block = Ok raw_data ∧
    _decode_data raw_data = Ok (Some <$> m).
Proof.
  intros Hm. set (pm := Some <$> m).
  assert (Hpm : ∀ k, is_Some (pm !! k) →
            0 <= k < 65536 ∧ ∃ x, pm !! k = Some (Some x) ∧ 0 <= x < 256 ^ 255).
  { intros k [v Hv]. subst pm. rewrite lookup_fmap in Hv |- *.
    destruct (m !! k) as [x|] eqn:E; [|done]. destruct (Hm k x E). eauto. }
  assert (Hkeys : ∀ k, is_Some (pm !! k) → 0 <= k < 65536) by (intros k Hk; by apply Hpm).
  destruct (groups_of_params pm Hkeys) as (Hnd & Hleads & Hg).
  set (groups := groups_of (sorted_params pm)) in *.
  assert (Hw : ∀ l ts, (l, ts) ∈ groups → 0 <= l < 256 ∧ ∀ t, t ∈ ts → writable pm l t).
  { intros l ts Hin. destruct (Hg l ts Hin) as (Hl & _ & Hts). split; [done|].
    intros t [Ht Hk]%Hts. split; [done|]. by apply Hpm. }
  exists (block_fields pm groups), (write_block_bytes pm groups). split_and!.
  - by apply _construct_command_block_eq.
  - by apply packet_to_bytes_write_block.
  - rewrite _decode_data_scan.
    destruct (scan_groups (write_block_bytes pm groups) pm groups initial_state [])
      as (st' & Hs & Hd & _ & Hsub & Hcov);
      [done|apply map_empty_subseteq|by rewrite app_nil_r|].
    rewrite Hs, (scan_from_end _ _ Hd). f_equal.
    apply map_eq. intros k. destruct (pm !! k) as [v|] eqn:E.
    + assert (is_Some (values st' !! k)) as [v' Hv'].
      { destruct (lead_tail_range k (Hkeys k ltac:(eauto))) as (Hl & Ht & Heq).
        assert (Hlin : lead_of k ∈ groups.*1) by (apply Hleads; exists k; eauto).
        apply elem_tails_of in Hlin. rewrite <- Heq.
        eapply Hcov; [exact Hlin|].
        destruct (Hg _ _ Hlin) as (_ & _ & Hts). apply Hts. rewrite Heq. eauto. }
      rewrite Hv'. pose proof (lookup_weaken _ _ _ _ Hv' Hsub). congruence.
    + destruct (values st' !! k) as [v'|] eqn:E'; [|done].
      pose proof (lookup_weaken _ _ _ _ E' Hsub). congruence.
Qed.

Lemma write_block_round_trip_witness :
  ∃ block,
    _construct_command_block (Some <$> {[ 1 := 7; 256 := 12 ]}) = Ok block ∧
    packet_to_bytes block =
      Ok [Byte.xff; Byte.x00; Byte.xfe; Byte.x01; Byte.x01; Byte.x07;
          Byte.xff; Byte.x01; Byte.xfe; Byte.x01; Byte.x00; Byte.x0c] ∧
    _decode_data [Byte.xff; Byte.x00; Byte.xfe; Byte.x01; Byte.x01; Byte.x07;
                  Byte.xff; Byte.x01; Byte.xfe; Byte.x01; Byte.x00; Byte.x0c]
      = Ok {[ 1 := Some 7; 256 := Some 12 ]}.
Proof.
  destruct (write_block_round_trip {[ 1 := 7; 256 := 12 ]})
    as (block & raw & Hb & Hr & Hd).
  - compute_done.
  - exists block. split; [exact Hb|].
    assert (E : Ok block = Ok (block_fields (Some <$> {[ 1 := 7; 256 := 12 ]})
                                 [(0, [1]); (1, [0])])).
    { rewrite <- Hb. by vm_compute. }
    injection E as ->. split; by vm_compute.
Defined.

(** Without the bound on the values the round trip fails: the value 2^2040
    takes 256 bytes, its length is written on two bytes, and the decoder,
    which reads one length byte, returns another mapping. *)
Lemma round_trip_fails_for_256_byte_value :
  ∃ block raw_data,
    _construct_command_block (Some <$> {[ 1 := 2 ^ 2040 ]}) = Ok block ∧
    packet_to_bytes block = Ok raw_data ∧
    _decode_data raw_data = Ok {[ 0 := Some 0; 1 := Some 0 ]} ∧
    _decode_data raw_data ≠ Ok (Some <$> {[ 1 := 2 ^ 2040 ]}).
Proof.
  eexists _, _. split; [by vm_compute|]. split; [by vm_compute|].
  assert (Hd : ∀ raw, raw = Byte.xff :: Byte.x00 :: Byte.xfe :: Byte.x01 :: Byte.x00
                 :: Byte.x01 :: Byte.x01 :: replicate 255 Byte.x00 →
               _decode_data raw = Ok {[ 0 := Some 0; 1 := Some 0 ]}).
  { intros raw ->. by vm_compute. }
  split; [by apply Hd|]. rewrite Hd by done.
  intros E.
  apply (f_equal (fun r => match r with Ok d => d !! 0 | _ => None end)) in E.
  by vm_compute in E.
Qed.

(** * Further properties *)

(** ** The byte swap for any width *)

Lemma int_base2_app acc s1 s2 :
  int_base2 acc (s1 ++ s2) = int_base2 (int_base2 acc s1) s2.
Proof. revert acc. induction s1 as [|c s1 IH]; intros acc; [done|]. cbn. apply IH. Qed.

Lemma int_base2_ones acc n :
  int_base2 acc (str_repeat "1" n) = acc * 2 ^ Z.of_nat n + Z.ones (Z.of_nat n).
Proof.
  revert acc. induction n as [|n IH]; intros acc.
  - cbn [str_repeat int_base2]. change (Z.of_nat 0) with 0. rewrite Z.pow_0_r.
    change (Z.ones 0) with 0. lia.
  - cbn [str_repeat int_base2]. rewrite IH. change (Ascii.eqb "1" "1") with true.
    rewrite !Z.ones_equiv. replace (Z.of_nat (S n)) with (Z.succ (Z.of_nat n)) by lia.
    rewrite Z.pow_succ_r by lia. lia.
Qed.

Lemma int_base2_zeros acc n :
  int_base2 acc (str_repeat "0" n) = acc * 2 ^ Z.of_nat n.
Proof.
  revert acc. induction n as [|n IH]; intros acc.
  - cbn [str_repeat int_base2]. change (Z.of_nat 0) with 0. rewrite Z.pow_0_r. lia.
  - cbn [str_repeat int_base2]. rewrite IH. change (Ascii.eqb "0" "1") with false.
    replace (Z.of_nat (S n)) with (Z.succ (Z.of_nat n)) by lia.
    rewrite Z.pow_succ_r by lia. lia.
Qed.

Lemma lor_shifted_low a b n :
  0 <= n → 0 <= b < 2 ^ n → Z.lor (a * 2 ^ n) b = a * 2 ^ n + b.
Proof.
  intros Hn Hb.
  assert (Hdisj : Z.land (a * 2 ^ n) b = 0).
  { apply Z.bits_inj'. intros i Hi. rewrite Z.land_spec, Z.bits_0.
    destruct (Z.lt_ge_cases i n) as [Hlt|Hge].
    - by rewrite Z.mul_pow2_bits_low by lia.
    - destruct (Z.eq_dec b 0) as [->|Hne]; [by rewrite Z.bits_0, andb_false_r|].
      rewrite (Z.bits_above_log2 b i), andb_false_r; [done|lia|].
      apply Z.lt_le_trans with n; [|lia]. apply Z.log2_lt_pow2; lia. }
  rewrite <- Z.lxor_lor by done. symmetry. by apply Z.add_nocarry_lxor.
Qed.

Lemma _swap_high_low_eq (v : Z) (swap_size : nat) :
  _swap_high_low v swap_size =
    (v mod 2 ^ Z.of_nat swap_size) * 2 ^ Z.of_nat swap_size
    + (v / 2 ^ Z.of_nat swap_size) mod 2 ^ Z.of_nat swap_size.
Proof.
  unfold _swap_high_low. set (n := Z.of_nat swap_size).
  assert (Hn : 0 <= n) by lia.
  rewrite !int_base2_app, int_base2_ones, int_base2_zeros, int_base2_zeros, int_base2_ones.
  fold n. change (0 * 2 ^ n) with 0. rewrite !Z.add_0_l.
  rewrite <- Z.shiftl_mul_pow2 by done. rewrite <- Z.shiftl_land.
  rewrite !Z.land_ones by done. rewrite Z.shiftl_mul_pow2, Z.shiftr_div_pow2 by done.
  apply lor_shifted_low; [done|]. apply Z.mod_pos_bound. lia.
Qed.

(** X1: for every positive width the swap exchanges the two fields of that
    width: the low field of the argument becomes the high field of the
    result and the field above it the low one; what lies above both is
    dropped.  (Python's [int('', 2)] raises, so width 0 is left out.) *)
Theorem swap_high_low_fields (v : Z) (swap_size : nat) :
  (0 < swap_size)%nat →
  _swap_high_low v swap_size =
    (v mod 2 ^ Z.of_nat swap_size) * 2 ^ Z.of_nat swap_size
    + (v / 2 ^ Z.of_nat swap_size) mod 2 ^ Z.of_nat swap_size.
Proof. intros _. apply _swap_high_low_eq. Qed.

Lemma swap_high_low_fields_witness : _swap_high_low 0x12345 8 = 0x4523.
Proof. rewrite (swap_high_low_fields 0x12345 8); [reflexivity|lia]. Defined.

(** X2: on values of twice the width the swap is its own inverse. *)
Theorem swap_high_low_involutive (v : Z) (swap_size : nat) :
  (0 < swap_size)%nat →
  0 <= v < 2 ^ (2 * Z.of_nat swap_size) →
  _swap_high_low (_swap_high_low v swap_size) swap_size = v.
Proof.
  intros Hs Hv. rewrite !_swap_high_low_eq. set (n := Z.of_nat swap_size) in *.
  assert (Hp : 0 < 2 ^ n) by (apply Z.pow_pos_nonneg; lia).
  replace (2 ^ (2 * n)) with (2 ^ n * 2 ^ n) in Hv by (rewrite <- Z.pow_add_r; [f_equal|..]; lia).
  assert (Hhi : 0 <= v / 2 ^ n < 2 ^ n).
  { split; [apply Z.div_pos; lia|apply Z.div_lt_upper_bound; lia]. }
  pose proof (Z.mod_pos_bound v (2 ^ n) Hp) as Hlo.
  rewrite (Z.mod_small (v / 2 ^ n)) by done.
  replace ((v mod 2 ^ n * 2 ^ n + v / 2 ^ n) mod 2 ^ n) with (v / 2 ^ n)
    by (apply Z.mod_unique with (v mod 2 ^ n); lia).
  replace ((v mod 2 ^ n * 2 ^ n + v / 2 ^ n) / 2 ^ n) with (v mod 2 ^ n)
    by (apply Z.div_unique with (v / 2 ^ n); lia).
  rewrite (Z.mod_small (v mod 2 ^ n)) by done.
  pose proof (Z.div_mod v (2 ^ n)). lia.
Qed.

Lemma swap_high_low_involutive_witness :
  _swap_high_low (_swap_high_low 0xBEEF 8) 8 = 0xBEEF.
Proof. apply swap_high_low_involutive; [lia|split; [lia|reflexivity]]. Defined.

(** ** What the checksum detects and what it does not *)

Lemma sum_bytes_app b1 b2 : sum_bytes (b1 ++ b2) = sum_bytes b1 + sum_bytes b2.
Proof.
  induction b1 as [|x b1 IH]; [done|].
  change (sum_bytes ((x :: b1) ++ b2)) with (byte_int x + sum_bytes (b1 ++ b2)).
  change (sum_bytes (x :: b1)) with (byte_int x + sum_bytes b1). lia.
Qed.

Lemma sum_bytes_cons x b : sum_bytes (x :: b) = byte_int x + sum_bytes b.
Proof. reflexivity. Qed.

Lemma byte_swap16_inj s t :
  0 <= s < 65536 → 0 <= t < 65536 → byte_swap16 s = byte_swap16 t → s = t.
Proof.
  unfold byte_swap16. intros Hs Ht E.
  pose proof (Z.mod_pos_bound s 256). pose proof (Z.mod_pos_bound t 256).
  pose proof (Z.div_mod s 256). pose proof (Z.div_mod t 256).
  assert (0 <= s / 256 < 256) by (split; [apply Z.div_pos; lia|apply Z.div_lt_upper_bound; lia]).
  assert (0 <= t / 256 < 256) by (split; [apply Z.div_pos; lia|apply Z.div_lt_upper_bound; lia]).
  lia.
Qed.

Lemma _checksum_value data covered check :
  packet_to_bytes data = Ok covered → _checksum data = Ok check →
  value check = byte_swap16 (sum_bytes covered mod 65536) ∧ byte_size check = 2.
Proof.
  intros Hb Hc. rewrite (_checksum_eq _ _ Hb) in Hc. by injection Hc as <-.
Qed.

(** X3: two covered regions that differ in exactly one byte never have the
    same checksum. *)
Theorem checksum_detects_one_changed_byte data data' before after (x y : Byte.byte) :
  packet_to_bytes data = Ok (before ++ x :: after) →
  packet_to_bytes data' = Ok (before ++ y :: after) →
  x ≠ y →
  _checksum data ≠ _checksum data'.
Proof.
  intros Hd Hd' Hxy E.
  rewrite (_checksum_eq _ _ Hd), (_checksum_eq _ _ Hd') in E.
  injection E as E. apply byte_swap16_inj in E; [|apply sum_mod_range..].
  rewrite !sum_bytes_app, !sum_bytes_cons in E.
  pose proof (byte_int_range x). pose proof (byte_int_range y).
  assert (byte_int x ≠ byte_int y) by (intros Hb; by apply byte_int_inj in Hb).
  set (a := sum_bytes before) in *. set (c := sum_bytes after) in *.
  pose proof (Z.div_mod (a + (byte_int x + c)) 65536).
  pose proof (Z.div_mod (a + (byte_int y + c)) 65536). lia.
Qed.

Lemma checksum_detects_one_changed_byte_witness :
  _checksum [Section 0x0102 (Some 2)] ≠ _checksum [Section 0x0103 (Some 2)].
Proof.
  apply (checksum_detects_one_changed_byte _ _ [Byte.x01] [] Byte.x02 Byte.x03);
    [reflexivity|reflexivity|discriminate].
Defined.

Lemma sum_bytes_Permutation b1 b2 : b1 ≡ₚ b2 → sum_bytes b1 = sum_bytes b2.
Proof.
  induction 1 as [|x b1 b2 _ IH|x y b|b1 b2 b3 _ IH1 _ IH2];
    rewrite ?sum_bytes_cons; lia.
Qed.

(** X4: the checksum only depends on the covered bytes as a multiset:
    covered regions that are rearrangements of each other, such as two
    bytes exchanged, have the same checksum. *)
Theorem checksum_blind_to_reordering data data' covered covered' :
  packet_to_bytes data = Ok covered →
  packet_to_bytes data' = Ok covered' →
  covered ≡ₚ covered' →
  _checksum data = _checksum data'.
Proof.
  intros Hd Hd' Hp. rewrite (_checksum_eq _ _ Hd), (_checksum_eq _ _ Hd').
  by rewrite (sum_bytes_Permutation _ _ Hp).
Qed.

Lemma checksum_blind_to_reordering_witness :
  _checksum [Section 0x0102 (Some 2)] = _checksum [Section 0x0201 (Some 2)].
Proof.
  apply (checksum_blind_to_reordering _ _ [Byte.x01; Byte.x02] [Byte.x02; Byte.x01]);
    [reflexivity|reflexivity|apply Permutation_swap].
Defined.

(** ** A command passes the client's own validation *)

(** The frame of a command: header, covered bytes, checksum bytes. *)
Lemma _command_frame self function data command :
  _command self function data = Ok command →
  ∃ fields covered,
    command = HEADER :: fields
              ++ [Section (byte_swap16 (sum_bytes covered mod 65536)) (Some 2)] ∧
    packet_to_bytes fields = Ok covered ∧
    packet_to_bytes command =
      Ok ([Byte.xfd; Byte.xfd] ++ covered
          ++ [int_byte ((sum_bytes covered mod 65536) mod 256);
              int_byte ((sum_bytes covered mod 65536) / 256)]).
Proof.
  intros Hcmd.
  apply _command_inv in Hcmd
    as (id_bytes & pwd_fields & data_bytes & check & _ & _ & _ & Hcheck & ->).
  set (fields := _ ++ _ ++ _) in *.
  assert (∃ covered, packet_to_bytes fields = Ok covered) as [covered Hcov].
  { unfold _checksum in Hcheck. destruct (packet_to_bytes fields); eauto; done. }
  rewrite (_checksum_eq _ _ Hcov) in Hcheck. injection Hcheck as <-.
  exists fields, covered. split_and!; [done..|].
  change (HEADER :: ?l) with ([HEADER] ++ l).
  rewrite !packet_to_bytes_app_eq, Hcov. cbn [packet_to_bytes].
  rewrite to_bytes_HEADER, checksum_field_bytes by apply sum_mod_range. done.
Qed.

(** X5: the checksum the client reads off the last two bytes of a frame it
    built equals the checksum it expects for the fields of that frame, so
    validating its own command logs no warning. *)
Theorem command_passes_own_validation self function data command frame :
  _command self function data = Ok command →
  packet_to_bytes command = Ok frame →
  expected_check_sum command = Ok (actual_check_sum frame) ∧
  checksum_warning frame command = Ok false.
Proof.
  intros Hcmd Hframe.
  destruct (_command_frame _ _ _ _ Hcmd) as (fields & covered & -> & Hcov & Hbytes).
  set (s := sum_bytes covered mod 65536) in *.
  assert (frame = [Byte.xfd; Byte.xfd] ++ covered
                  ++ [int_byte (s mod 256); int_byte (s / 256)]) as -> by congruence.
  assert (Hs : 0 <= s < 65536) by apply sum_mod_range.
  assert (Hexp : expected_check_sum
            (HEADER :: fields ++ [Section (byte_swap16 s) (Some 2)]) = Ok (byte_swap16 s)).
  { unfold expected_check_sum. rewrite slice_inner, (_checksum_eq _ _ Hcov). done. }
  assert (Hact : actual_check_sum
            ([Byte.xfd; Byte.xfd] ++ covered ++ [int_byte (s mod 256); int_byte (s / 256)])
            = byte_swap16 s).
  { unfold actual_check_sum. rewrite app_assoc, length_app. cbn [length].
    replace (length ([Byte.xfd; Byte.xfd] ++ covered) + 2 - 2)%nat
      with (length ([Byte.xfd; Byte.xfd] ++ covered)) by lia.
    rewrite drop_app_length. cbn [set_bytes value]. unfold int_from_bytes. cbn [foldl].
    assert (0 <= s / 256 < 256) by (split; [apply Z.div_pos; lia|apply Z.div_lt_upper_bound; lia]).
    rewrite !byte_int_byte by (done || apply Z.mod_pos_bound; lia).
    unfold byte_swap16. lia. }
  split.
  - by rewrite Hexp, Hact.
  - unfold checksum_warning. rewrite Hexp, Hact. cbn. by rewrite Z.eqb_refl.
Qed.

Lemma command_passes_own_validation_witness :
  ∃ command frame,
    _command sample_client_pwd FUNC.RW sample_data = Ok command ∧
    packet_to_bytes command = Ok frame ∧
    checksum_warning frame command = Ok false.
Proof.
  eexists _, _. split; [by vm_compute|]. split; [by vm_compute|].
  eapply (command_passes_own_validation sample_client_pwd FUNC.RW sample_data);
    by vm_compute.
Defined.

(** ** What the decoder can answer *)

Lemma getitem_Raise {A} (l : list A) i e : getitem l i = Raise e → e = IndexError.
Proof. unfold getitem. destruct (l !! i); congruence. Qed.

Lemma loop_body_Raise raw st e : loop_body raw st = Raise e → e = IndexError.
Proof.
  unfold loop_body.
  repeat match goal with
  | |- context [getitem ?l ?i] =>
      let E := fresh in
      destruct (getitem l i) eqn:E;
      [run| intros [= <-]; by apply getitem_Raise in E | done]
  | |- context [if ?c then _ else _] => destruct c
  end; done.
Qed.

Lemma while_loop_Raise fuel raw st e :
  while_loop fuel raw st = Raise e → e = IndexError.
Proof.
  revert st. induction fuel as [|fuel IH]; intros st; simpl;
    destruct (index st <? length raw)%nat; try done.
  destruct (loop_body raw st) as [[st'|r]| |] eqn:E; run; try done.
  - apply IH.
  - intros [= <-]. by apply loop_body_Raise in E.
Qed.

(** X6: on every block the decoder either returns a mapping or raises
    [IndexError]; it raises nothing else. *)
Theorem decode_returns_or_index_error (raw_data : pybytes) :
  (∃ result, _decode_data raw_data = Ok result) ∨ _decode_data raw_data = Raise IndexError.
Proof.
  destruct (_decode_data raw_data) as [result|e|] eqn:E.
  - left. by exists result.
  - right. apply while_loop_Raise in E. by subst.
  - by apply _decode_data_terminates in E.
Qed.

(** ** The entries of a decoded mapping *)

Lemma param_of_range lead tail :
  (length lead ≤ 1)%nat → 0 <= param_of lead [tail] < 65536.
Proof.
  intros Hl. unfold param_of. cbn [set_bytes value].
  pose proof (int_from_bytes_range (lead ++ [tail])) as Hr.
  rewrite length_app in Hr. cbn [length] in Hr.
  assert (256 ^ Z.of_nat (length lead + 1) <= 256 ^ 2) by (apply Z.pow_le_mono_r; lia).
  change (256 ^ 2) with 65536 in *. lia.
Qed.

Lemma int_from_bytes_bound b n :
  (length b ≤ n)%nat → 0 <= int_from_bytes b < 256 ^ Z.of_nat n.
Proof.
  intros Hl. pose proof (int_from_bytes_range b).
  assert (256 ^ Z.of_nat (length b) <= 256 ^ Z.of_nat n) by (apply Z.pow_le_mono_r; lia).
  lia.
Qed.

Lemma byte_nat_bound b : (Z.to_nat (byte_int b) ≤ 255)%nat.
Proof. pose proof (byte_int_range b). lia. Qed.

Lemma loop_body_state_ok raw st st' :
  state_ok st → loop_body raw st = Ok (Next st') → state_ok st'.
Proof.
  intros [Hl Hv]. unfold loop_body.
  destruct (getitem raw (index st)) as [func| |]; [|done..]. run.
  destruct (byte_int func =? value LEAD_INDICATOR).
  { destruct (getitem raw (S (index st))); [|done..]. intros [= <-]. by split. }
  destruct (byte_int func =? value INVALID).
  { destruct (getitem raw (S (index st))) as [t| |]; [|done..]. intros [= <-].
    split; [done|]. cbn. destruct (values st !! _) eqn:E; [done|].
    apply map_Forall_insert_2; [|done]. split; [by apply param_of_range|done]. }
  destruct (byte_int func =? value DYNAMIC_VAL).
  { destruct (getitem raw (S (index st))) as [L| |]; [|done..]. run.
    destruct (_ <? _)%nat; [done|].
    destruct (getitem raw (S (S (index st)))) as [t| |]; [|done..]. intros [= <-].
    split; [done|]. cbn. apply map_Forall_insert_2; [|done].
    split; [by apply param_of_range|].
    change 255 with (Z.of_nat 255). apply int_from_bytes_bound.
    unfold slice. rewrite length_take. pose proof (byte_nat_bound L). lia. }
  run. destruct (getitem raw (S (index st))) as [x| |]; [|done..]. intros [= <-].
  split; [done|]. cbn. apply map_Forall_insert_2; [|done].
  split; [by apply param_of_range|].
  pose proof (byte_int_range x).
  assert (256 ^ 1 <= 256 ^ 255) by (apply Z.pow_le_mono_r; lia). lia.
Qed.

Lemma while_loop_state_ok fuel raw st result :
  state_ok st → while_loop fuel raw st = Ok result → map_Forall decoded_entry result.
Proof.
  revert st. induction fuel as [|fuel IH]; intros st Hok; simpl;
    destruct (index st <? length raw)%nat; try done;
    try (intros [= <-]; by destruct Hok).
  destruct (loop_body raw st) as [[st'|r]| |] eqn:E; run; try done.
  - apply IH. by eapply loop_body_state_ok.
  - intros [= <-]. rewrite (loop_body_Return _ _ _ E). by destruct Hok.
Qed.

(** X7: every key of a decoded mapping is a 16-bit id, and every value in
    it is a non-negative integer below 256^255. *)
Theorem decoded_entries_are_bounded (raw_data : pybytes) result :
  _decode_data raw_data = Ok result → map_Forall decoded_entry result.
Proof.
  apply while_loop_state_ok. split; [cbn; lia|]. apply map_Forall_empty.
Qed.

Lemma decoded_entries_are_bounded_witness :
  map_Forall decoded_entry
    ({[ 5 := Some 10; 6 := None; 7 := Some 300 ]} : gmap Z (option Z)).
Proof.
  apply (decoded_entries_are_bounded
           [Byte.xff; Byte.x00; Byte.x05; Byte.x0a; Byte.xfd; Byte.x06;
            Byte.xfe; Byte.x02; Byte.x07; Byte.x01; Byte.x2c]).
  by vm_compute.
Defined.

(** ** The decoder on well-formed blocks *)

Lemma drop_add_app {A} (l : list A) i (pre rest : list A) :
  drop i l = pre ++ rest → drop (i + length pre) l = rest.
Proof. intros H. by rewrite <- drop_drop, H, drop_app_length. Qed.

(** One item is read by one iteration of the loop. *)
Lemma scan_item raw st i rest :
  item_ok i →
  drop (index st) raw = item_bytes i ++ rest →
  ∃ st',
    scan_step raw st st' ∧
    drop (index st') raw = rest ∧
    (values st', lead_byte st') = apply_item (values st, lead_byte st) i.
Proof.
  intros Hok Hd. destruct i as [l|t|t c|t v]; cbn [item_bytes app] in Hd.
  - eexists. split; [by eapply step_lead|]. split; [|done]. cbn [index].
    replace (S (S (index st))) with (index st + length [Byte.xff; l])%nat by (cbn; lia).
    by apply drop_add_app.
  - eexists. split; [by eapply step_invalid|]. split; [|done]. cbn [index].
    replace (S (S (index st))) with (index st + length [Byte.xfd; t])%nat by (cbn; lia).
    by apply drop_add_app.
  - cbn [item_ok] in Hok.
    assert (HL : Z.to_nat (byte_int (int_byte (Z.of_nat (length c)))) = length c).
    { rewrite byte_int_byte by lia. lia. }
    pose proof (step_dynamic raw st _ _ _ Hd) as Hs. rewrite HL in Hs.
    specialize (Hs ltac:(rewrite length_app; lia)).
    rewrite take_app_length in Hs.
    eexists. split; [exact Hs|]. split; [|done]. cbn [index].
    replace (S (S (S (index st))) + length c)%nat
      with (index st + length (Byte.xfe :: int_byte (Z.of_nat (length c)) :: t :: c))%nat
      by (cbn; lia).
    apply drop_add_app. by rewrite <- !app_comm_cons.
  - destruct Hok as (Hff & Hfd & Hfe).
    eexists. split; [by eapply step_default|]. split; [|done]. cbn [index].
    replace (S (S (index st))) with (index st + length [t; v])%nat by (cbn; lia).
    by apply drop_add_app.
Qed.

Lemma scan_items raw items : ∀ st rest,
  Forall item_ok items →
  drop (index st) raw = block_bytes items ++ rest →
  ∃ st',
    scan_from raw st = scan_from raw st' ∧
    drop (index st') raw = rest ∧
    (values st', lead_byte st') = foldl apply_item (values st, lead_byte st) items.
Proof.
  induction items as [|i items IH]; intros st rest Hok Hd.
  - exists st. by split_and!.
  - apply Forall_cons in Hok as [Hi Hok].
    unfold block_bytes in Hd. cbn [flat_map] in Hd. rewrite <- app_assoc in Hd.
    destruct (scan_item _ _ _ _ Hi Hd) as (st1 & Hs1 & Hd1 & Hv1).
    destruct (IH st1 rest Hok Hd1) as (st' & Hs' & Hd' & Hv').
    exists st'. split_and!; [|done|].
    + rewrite <- Hs'. apply scan_from_step; [|done].
      destruct i; cbn [item_bytes app] in Hd; by eapply drop_cons_lt.
    + cbn [foldl]. by rewrite <- Hv1.
Qed.

Lemma scan_block raw items rest :
  Forall item_ok items →
  raw = block_bytes items ++ rest →
  ∃ st',
    _decode_data raw = scan_from raw st' ∧
    drop (index st') raw = rest ∧
    values st' = apply_items items.
Proof.
  intros Hok ->. set (raw := block_bytes items ++ rest).
  destruct (scan_items raw items initial_state rest Hok eq_refl) as (st' & Hs & Hd & Hv).
  exists st'. rewrite _decode_data_scan. split_and!; [done..|].
  unfold apply_items. cbn [values lead_byte initial_state] in Hv. by rewrite <- Hv.
Qed.

(** X8: a block made of well-formed items decodes to the mapping that the
    items build one after the other from the empty mapping, the lead byte
    being carried from one item to the next. *)
Theorem decode_well_formed_block (items : list item) :
  Forall item_ok items →
  _decode_data (block_bytes items) = Ok (apply_items items).
Proof.
  intros Hok.
  destruct (scan_block (block_bytes items) items [] Hok) as (st' & Hs & Hd & Hv);
    [by rewrite app_nil_r|].
  by rewrite Hs, (scan_from_end _ _ Hd), Hv.
Qed.

Lemma decode_well_formed_block_witness :
  _decode_data [Byte.xff; Byte.x01; Byte.x05; Byte.x0a; Byte.x06; Byte.x0b;
                Byte.xfd; Byte.x07; Byte.xfe; Byte.x02; Byte.x08; Byte.x01; Byte.x2c]
  = Ok {[ 0x0105 := Some 10; 0x0106 := Some 11; 0x0107 := None; 0x0108 := Some 300 ]}.
Proof.
  refine (decode_well_formed_block
            [Lead Byte.x01; Default Byte.x05 Byte.x0a; Default Byte.x06 Byte.x0b;
             Invalid Byte.x07; Dynamic Byte.x08 [Byte.x01; Byte.x2c]] _).
  repeat constructor; (done || cbn; lia).
Defined.

(** X9: when, after well-formed items, a dynamic value announces more bytes
    than are left after its length byte, the decoder returns the mapping of
    the items before it. *)
Theorem decode_stops_at_long_dynamic (items : list item) (L : Byte.byte) (rest : pybytes) :
  Forall item_ok items →
  (length rest < Z.to_nat (byte_int L))%nat →
  _decode_data (block_bytes items ++ Byte.xfe :: L :: rest) = Ok (apply_items items).
Proof.
  intros Hok Hlen.
  destruct (scan_block _ items (Byte.xfe :: L :: rest) Hok eq_refl) as (st' & Hs & Hd & Hv).
  rewrite Hs, scan_from_body by (by eapply drop_cons_lt).
  by rewrite (step_dynamic_truncated _ _ _ _ Hd Hlen), <- Hv.
Qed.

Lemma decode_stops_at_long_dynamic_witness :
  _decode_data [Byte.xff; Byte.x00; Byte.x05; Byte.x0a; Byte.xfe; Byte.x05; Byte.x01]
  = Ok {[ 5 := Some 10 ]}.
Proof.
  refine (decode_stops_at_long_dynamic
            [Lead Byte.x00; Default Byte.x05 Byte.x0a] Byte.x05 [Byte.x01] _ _).
  - repeat constructor; done.
  - cbn. lia.
Defined.

Lemma loop_body_last_byte raw st b :
  drop (index st) raw = [b] → loop_body raw st = Raise IndexError.
Proof.
  intros Hd. pose proof (drop_cons_length _ _ _ _ Hd) as Hlen. cbn in Hlen.
  apply getitem_drop in Hd as [H0 _].
  assert (H1 : getitem raw (S (index st)) = Raise (A:=Byte.byte) IndexError).
  { unfold getitem. rewrite lookup_ge_None_2; [done|lia]. }
  unfold loop_body. rewrite H0. run. rewrite H1.
  by repeat match goal with |- context [if ?c then _ else _] => destruct c end.
Qed.

(** X10: one more byte after well-formed items, whatever it is, makes the
    decoder raise [IndexError]: a marker without its operand and a tail
    without its value are both read past the end of the block. *)
Theorem decode_raises_on_stray_byte (items : list item) (b : Byte.byte) :
  Forall item_ok items →
  _decode_data (block_bytes items ++ [b]) = Raise IndexError.
Proof.
  intros Hok.
  destruct (scan_block _ items [b] Hok eq_refl) as (st' & Hs & Hd & Hv).
  rewrite Hs, scan_from_body by (by eapply drop_cons_lt).
  by rewrite (loop_body_last_byte _ _ _ Hd).
Qed.

Lemma decode_raises_on_stray_byte_witness :
  _decode_data [Byte.xff; Byte.x00; Byte.x05; Byte.x0a; Byte.x06] = Raise IndexError.
Proof.
  apply (decode_raises_on_stray_byte [Lead Byte.x00; Default Byte.x05 Byte.x0a] Byte.x06).
  repeat constructor; done.
Defined.

(** ** The order of the ids in a block *)

Lemma group_ids_app d1 d2 : group_ids (d1 ++ d2) = group_ids d1 ++ group_ids d2.
Proof. unfold group_ids. by rewrite flat_map_app. Qed.

Lemma group_ids_cons l ts d :
  group_ids ((l, ts) :: d) = ((fun tail => l * 256 + tail) <$> ts) ++ group_ids d.
Proof. reflexivity. Qed.

(** Adding a tail under a lead that is not below any lead of the groups
    puts its id last and keeps the leads in ascending order. *)
Lemma add_tail_ids l t d :
  StronglySorted Z.lt d.*1 →
  (∀ l', l' ∈ d.*1 → l' <= l) →
  group_ids (add_tail l t d) = group_ids d ++ [l * 256 + t] ∧
  StronglySorted Z.lt (add_tail l t d).*1 ∧
  (∀ l', l' ∈ (add_tail l t d).*1 → l' <= l).
Proof.
  induction d as [|[l0 ts] d IH]; intros Hs Hb.
  - cbn [add_tail]. split_and!; [done|repeat constructor|].
    intros l' Hl'. apply list_elem_of_singleton in Hl'. cbn in Hl'. lia.
  - rewrite fmap_cons in Hs, Hb. cbn [fst] in Hs, Hb.
    apply StronglySorted_cons in Hs as [Hall Hs]. rewrite Forall_forall in Hall.
    assert (Hl0 : l0 <= l) by (apply Hb; at_head).
    cbn [add_tail]. destruct (Z.eqb_spec l0 l) as [->|Hne].
    + assert (d = []) as ->.
      { destruct d as [|[l1 ts1] d]; [done|]. exfalso.
        assert (l < l1) by (apply Hall; rewrite fmap_cons; at_head).
        assert (l1 <= l) by (apply Hb; rewrite !fmap_cons; apply list_elem_of_further; at_head).
        lia. }
      split_and!.
      * rewrite !group_ids_cons, fmap_app. cbn. by rewrite !app_nil_r.
      * repeat constructor.
      * done.
    + destruct IH as (Hids & Hs' & Hb'); [done|intros l' Hl'; apply Hb; by apply list_elem_of_further|].
      split_and!.
      * rewrite !group_ids_cons, Hids. by rewrite app_assoc.
      * rewrite fmap_cons. cbn [fst]. apply StronglySorted_cons. split; [|done].
        apply Forall_forall. intros l' Hl'. rewrite keys_add_tail in Hl'.
        destruct (dict_in l d); [by apply Hall|].
        apply elem_of_app in Hl' as [?|Hx%list_elem_of_singleton]; [by apply Hall|lia].
      * rewrite fmap_cons. cbn [fst]. intros l' [->|Hl']%elem_of_cons; [done|by apply Hb'].
Qed.

Lemma lead_of_mono k k' : k <= k' → lead_of k <= lead_of k'.
Proof. intros H. unfold lead_of. apply Z.div_le_mono; lia. Qed.

Lemma groups_fold_ids params : ∀ d,
  Forall (fun k => 0 <= k < 65536) params →
  StronglySorted Z.lt params →
  StronglySorted Z.lt d.*1 →
  (∀ l' k, l' ∈ d.*1 → k ∈ params → l' <= lead_of k) →
  let d' := foldl (fun d param => add_tail (lead_of param) (tail_of param) d) d params in
  group_ids d' = group_ids d ++ params ∧ StronglySorted Z.lt d'.*1.
Proof.
  induction params as [|k params IH]; intros d Hr Hs Hd Hb; cbn [foldl].
  - by rewrite app_nil_r.
  - apply Forall_cons in Hr as [Hk Hr]. apply StronglySorted_cons in Hs as [Hall Hs].
    rewrite Forall_forall in Hall.
    destruct (add_tail_ids (lead_of k) (tail_of k) d Hd) as (Hids & Hs' & Hb').
    { intros l' Hl'. apply Hb; [done|at_head]. }
    destruct (lead_tail_range k Hk) as (_ & _ & Heq). rewrite Heq in Hids.
    destruct (IH (add_tail (lead_of k) (tail_of k) d) Hr Hs Hs') as [Hids' Hs''].
    { intros l' k' Hl' Hk'. etrans; [by apply Hb'|]. apply lead_of_mono.
      specialize (Hall k' Hk'). lia. }
    cbv zeta in Hids', Hs''. split; [|done].
    rewrite Hids', Hids, <- app_assoc. done.
Qed.

Lemma sorted_params_range (m : gmap Z (option Z)) :
  map_Forall (fun k _ => 0 <= k < 65536) m →
  Forall (fun k => 0 <= k < 65536) (sorted_params m).
Proof.
  intros Hm. apply Forall_forall. intros k [v Hv]%sorted_params_elem. by apply (Hm k v).
Qed.

(** X12: in the block of a mapping with 16-bit keys the groups come in
    strictly ascending order of their lead byte and the ids, read group by
    group, are the keys of the mapping in strictly ascending order, each
    once. *)
Theorem block_lists_ids_in_ascending_order (m : gmap Z (option Z)) :
  map_Forall (fun k _ => 0 <= k < 65536) m →
  ∃ groups,
    _construct_command_block m = Ok (block_fields m groups) ∧
    StronglySorted Z.lt groups.*1 ∧
    StronglySorted Z.lt (group_ids groups) ∧
    ∀ k, k ∈ group_ids groups ↔ is_Some (m !! k).
Proof.
  intros Hm. exists (groups_of (sorted_params m)).
  destruct (groups_fold_ids (sorted_params m) [])
    as [Hids Hs]; [by apply sorted_params_range|apply sorted_params_sorted|constructor| |].
  { by intros l' k ?%elem_of_nil. }
  cbv zeta in Hids, Hs. fold (groups_of (sorted_params m)) in Hids, Hs. cbn [app group_ids flat_map] in Hids.
  split_and!; [|done| |].
  - apply _construct_command_block_eq. intros k [v Hv]. by apply (Hm k v).
  - rewrite Hids. apply sorted_params_sorted.
  - intros k. rewrite Hids. apply sorted_params_elem.
Qed.

Lemma block_lists_ids_in_ascending_order_witness :
  ∃ groups,
    _construct_command_block {[ 0x0201 := Some 7; 0x0005 := None; 0x0102 := None ]}
      = Ok (block_fields {[ 0x0201 := Some 7; 0x0005 := None; 0x0102 := None ]} groups) ∧
    StronglySorted Z.lt (group_ids groups).
Proof.
  destruct (block_lists_ids_in_ascending_order
              {[ 0x0201 := Some 7; 0x0005 := None; 0x0102 := None ]})
    as (groups & Hb & _ & Hs & _).
  - compute_done.
  - by exists groups.
Defined.

(** ** The size of a read request *)

Lemma length_read_block_bytes groups :
  length (read_block_bytes groups) = (2 * length groups + length (group_ids groups))%nat.
Proof.
  induction groups as [|[l ts] groups IH]; [done|].
  rewrite group_ids_cons. unfold read_block_bytes in *. cbn [flat_map].
  rewrite !length_app, IH, length_fmap. cbn [length]. rewrite length_map. lia.
Qed.

Lemma length_sorted_params (m : gmap Z (option Z)) : length (sorted_params m) = size m.
Proof.
  unfold sorted_params. rewrite merge_sort_Permutation, length_fmap.
  apply length_map_to_list.
Qed.

Lemma leads_of_groups (m : gmap Z (option Z)) (groups : odict) :
  NoDup groups.*1 →
  (∀ l, l ∈ groups.*1 ↔ ∃ k, is_Some (m !! k) ∧ lead_of k = l) →
  length groups = size (leads_of m).
Proof.
  intros Hnd Hl. rewrite <- (length_fmap fst groups), <- (size_list_to_set (C:=gset Z)) by done.
  f_equal. apply set_eq. intros l. unfold leads_of.
  rewrite elem_of_list_to_set, Hl, elem_of_map. split.
  - intros (k & Hk & <-). exists k. split; [done|]. by apply elem_of_dom.
  - intros (k & -> & Hk). exists k. split; [by apply elem_of_dom|done].
Qed.

(** X13: a read request for the ids of a mapping takes two bytes for each
    distinct lead byte among the ids and one byte for each id. *)
Theorem read_request_length (m : gmap Z (option Z)) :
  map_Forall (fun k v => 0 <= k < 65536 ∧ v = None) m →
  ∃ block raw_data,
    _construct_command_block m = Ok block ∧
    packet_to_bytes block = Ok raw_data ∧
    length raw_data = (2 * size (leads_of m) + size m)%nat.
Proof.
  intros Hm.
  assert (Hkeys : ∀ k, is_Some (m !! k) → 0 <= k < 65536).
  { intros k [v Hv]. by destruct (Hm k v Hv). }
  assert (Hr : map_Forall (fun k _ => 0 <= k < 65536) m).
  { intros k v Hv. by destruct (Hm k v Hv). }
  destruct (groups_of_params m Hkeys) as (Hnd & Hleads & Hg).
  destruct (groups_fold_ids (sorted_params m) [])
    as [Hids _]; [by apply sorted_params_range|apply sorted_params_sorted|constructor| |].
  { by intros l' k ?%elem_of_nil. }
  cbv zeta in Hids. fold (groups_of (sorted_params m)) in Hids.
  cbn [app group_ids flat_map] in Hids.
  set (groups := groups_of (sorted_params m)) in *.
  exists (read_block_fields groups), (read_block_bytes groups). split_and!.
  - rewrite _construct_command_block_eq by done. f_equal.
    apply read_block_fields_eq. intros l ts t Hin Ht.
    destruct (Hg l ts Hin) as (_ & _ & Hts). apply Hts in Ht as [_ [v Hv]].
    destruct (Hm _ _ Hv) as [_ ->]. done.
  - apply packet_to_bytes_read_block. intros l ts Hin.
    destruct (Hg l ts Hin) as (Hl & _ & Hts). split; [done|]. intros t Ht. by apply Hts.
  - rewrite length_read_block_bytes, Hids, length_sorted_params.
    by rewrite (leads_of_groups m groups).
Qed.

Lemma read_request_length_witness :
  ∃ raw_data,
    (block ← _construct_command_block
               {[ 0x0102 := None; 0x0101 := None; 0x0005 := None ]};
     packet_to_bytes block) = Ok raw_data ∧
    length raw_data = 7%nat.
Proof.
  destruct (read_request_length {[ 0x0102 := None; 0x0101 := None; 0x0005 := None ]})
    as (block & raw & Hb & Hr & Hlen).
  - compute_done.
  - exists raw. rewrite Hb. split; [exact Hr|]. rewrite Hlen. by vm_compute.
Defined.

(** ** The requests of the public operations *)

Lemma read_request_lookup (ids : list Z) (acc : gmap Z (option Z)) k :
  foldl (fun params param => <[param := None]> params) acc ids !! k =
    if decide (k ∈ ids) then Some None else acc !! k.
Proof.
  revert acc. induction ids as [|i ids IH]; intros acc; cbn [foldl].
  - case_decide as H; [by apply elem_of_nil in H|done].
  - rewrite IH. destruct (decide (k ∈ ids)) as [Hin|Hnin].
    + rewrite decide_True; [done|by apply list_elem_of_further].
    + destruct (decide (k = i)) as [->|Hne].
      * rewrite decide_True by at_head. apply lookup_insert_eq.
      * rewrite decide_False by (intros [?|?]%elem_of_cons; done).
        by apply lookup_insert_ne.
Qed.


(** ** A device that does not answer *)

Lemma packet_to_bytes_tail_fields v t :
  0 <= t < 256 →
  match v with Some x => 0 <= x | None => True end →
  ∃ b, packet_to_bytes (tail_fields v t) = Ok b.
Proof.
  intros Ht Hv. destruct v as [x|]; cbn [tail_fields packet_to_bytes].
  - change (to_bytes DYNAMIC_VAL) with (Ok [Byte.xfe] : outcome pybytes).
    change (byte_size (Section x None)) with (auto_size x).
    pose proof (auto_size_pos x).
    rewrite (to_bytes_auto (auto_size x)), (to_bytes_byte t), (to_bytes_auto x) by (done || lia).
    run. eauto.
  - rewrite to_bytes_byte by done. run. eauto.
Qed.

Lemma packet_to_bytes_group_fields (m : gmap Z (option Z)) l ts :
  (∀ t, t ∈ ts → 0 <= t < 256 ∧
     match default None (m !! (l * 256 + t)) with Some x => 0 <= x | None => True end) →
  ∃ b, packet_to_bytes
         (flat_map (fun tail => tail_fields (default None (m !! (l * 256 + tail))) tail) ts)
       = Ok b.
Proof.
  induction ts as [|t ts IH]; intros Hts; [by exists []|].
  destruct (Hts t) as [Ht Hv]; [at_head|].
  destruct (packet_to_bytes_tail_fields _ t Ht Hv) as [b1 Hb1].
  destruct IH as [b2 Hb2]; [in_rest Hts|].
  cbn [flat_map]. rewrite packet_to_bytes_app_eq, Hb1, Hb2. run. eauto.
Qed.

Lemma packet_to_bytes_block_fields (m : gmap Z (option Z)) groups :
  (∀ l ts, (l, ts) ∈ groups → 0 <= l < 256 ∧ ∀ t, t ∈ ts → 0 <= t < 256 ∧
     match default None (m !! (l * 256 + t)) with Some x => 0 <= x | None => True end) →
  ∃ b, packet_to_bytes (block_fields m groups) = Ok b.
Proof.
  induction groups as [|[l ts] groups IH]; intros Hg; [by exists []|].
  destruct (Hg l ts) as [Hl Hts]; [at_head|].
  destruct (packet_to_bytes_group_fields m l ts Hts) as [b1 Hb1].
  destruct IH as [b2 Hb2]; [in_rest Hg|].
  rewrite block_fields_cons, !packet_to_bytes_app_eq, Hb1, Hb2.
  cbn [packet_to_bytes]. rewrite to_bytes_byte by done. run. eauto.
Qed.

(** Every sendable mapping has a block, and the block has bytes. *)
Lemma sendable_block (m : gmap Z (option Z)) :
  map_Forall sendable m →
  ∃ block raw, _construct_command_block m = Ok block ∧ packet_to_bytes block = Ok raw.
Proof.
  intros Hm.
  assert (Hkeys : ∀ k, is_Some (m !! k) → 0 <= k < 65536).
  { intros k [v Hv]. by destruct (Hm k v Hv). }
  destruct (groups_of_params m Hkeys) as (_ & _ & Hg).
  destruct (packet_to_bytes_block_fields m (groups_of (sorted_params m))) as [raw Hraw].
  { intros l ts Hin. destruct (Hg l ts Hin) as (Hl & _ & Hts). split; [done|].
    intros t [Ht [v Hv]]%Hts. split; [done|]. rewrite Hv. cbn.
    by destruct (Hm _ _ Hv). }
  eexists _, raw. split; [by apply _construct_command_block_eq|done].
Qed.

(** A client built from ASCII strings can frame every serialisable function
    code and data block. *)
Lemma _command_succeeds host port password device_id self function data func_bytes data_bytes :
  __init__ host port password device_id = Ok self →
  ascii_only device_id → ascii_only password →
  to_bytes function = Ok func_bytes →
  packet_to_bytes data = Ok data_bytes →
  ∃ command frame,
    _command self function data = Ok command ∧ packet_to_bytes command = Ok frame.
Proof.
  intros Hinit Hid Hpwd Hfunc Hdata.
  unfold __init__ in Hinit. destruct (eq_int _ 0); [done|]. injection Hinit as <-.
  set (self := mk_client _ _ _ _ _ _).
  pose proof (utf8_ascii _ Hid) as Uid. pose proof (utf8_ascii _ Hpwd) as Upwd.
  pose proof (to_bytes_auto (Z.of_nat (length device_id)) ltac:(lia)) as Tid.
  pose proof (to_bytes_auto (Z.of_nat (length password)) ltac:(lia)) as Tpwd.
  assert (Tidc : to_bytes (set_bytes (Packet.Template (Z.of_nat (length device_id)))
                   (map int_byte device_id)) = Ok (map int_byte device_id)).
  { apply to_bytes_set_bytes. by rewrite length_map. }
  assert (Tpwdc : to_bytes (set_bytes (Packet.Template (Z.of_nat (length password)))
                    (map int_byte password)) = Ok (map int_byte password)).
  { apply to_bytes_set_bytes. by rewrite length_map. }
  pose proof (data_field_bytes _ _ Hdata) as Tdata.
  assert (Hcmd : ∃ command, _command self function data = Ok command).
  { destruct (value (_pwd_size self) =? 0) eqn:Hval.
    - pose proof (_command_eq self function data _ _ [] Uid Hdata) as Hcmd.
      rewrite Hval in Hcmd. specialize (Hcmd eq_refl). cbv zeta in Hcmd.
      rewrite Hcmd. unfold _checksum. rewrite !packet_to_bytes_app_eq.
      cbn [packet_to_bytes _id_size _pwd_size self value Section].
      fold (Section (Z.of_nat (length device_id)) None).
      fold (Section (Z.of_nat (length password)) None).
      rewrite to_bytes_PROTOCOL_TYPE, Tid, Tidc, Tpwd, Hfunc, Tdata. run. eauto.
    - pose proof (_command_eq self function data _ _
        [set_bytes (Packet.Template (value (_pwd_size self))) (map int_byte password)]
        Uid Hdata) as Hcmd.
      rewrite Hval in Hcmd. specialize (Hcmd ltac:(eauto)). cbv zeta in Hcmd.
      rewrite Hcmd. unfold _checksum. rewrite !packet_to_bytes_app_eq.
      cbn [packet_to_bytes _id_size _pwd_size self value Section].
      fold (Section (Z.of_nat (length device_id)) None).
      fold (Section (Z.of_nat (length password)) None).
      change (auto_size (Z.of_nat (length device_id)))
        with (byte_size (Section (Z.of_nat (length device_id)) None)).
      rewrite to_bytes_PROTOCOL_TYPE, Tid, Tidc, Tpwd, Tpwdc, Hfunc, Tdata. run. eauto. }
  destruct Hcmd as [command Hcmd]. exists command.
  destruct (_command_frame _ _ _ _ Hcmd) as (fields & covered & _ & _ & Hframe).
  eauto.
Qed.

Lemma silent_exchange host port password device_id self decode function data func_bytes data_bytes :
  __init__ host port password device_id = Ok self →
  ascii_only device_id → ascii_only password →
  to_bytes function = Ok func_bytes →
  packet_to_bytes data = Ok data_bytes →
  decoded_response silent_device decode self function data = Ok ∅.
Proof.
  intros Hinit Hid Hpwd Hfunc Hdata.
  destruct (_command_succeeds _ _ _ _ _ _ _ _ _ Hinit Hid Hpwd Hfunc Hdata)
    as (command & frame & Hc & Hf).
  unfold decoded_response, _communicate_block. rewrite Hc. run. rewrite Hf. done.
Qed.

(** X16: when the device does not answer, a client built from ASCII strings
    gets the empty mapping from [read_params] and [write_params] and 0 from
    [read_param] and [device_type], for 16-bit ids and non-negative values,
    while [write_param] raises [KeyError]. *)
Theorem no_answer_gives_empty_mapping
    host port password device_id self decode (param val : Z) (ids : list Z)
    (parameters : gmap Z Z) :
  __init__ host port password device_id = Ok self →
  ascii_only device_id → ascii_only password →
  0 <= param < 65536 →
  0 <= val →
  Forall (fun k => 0 <= k < 65536) ids →
  map_Forall (fun k x => 0 <= k < 65536 ∧ 0 <= x) parameters →
  read_params silent_device decode self ids = Ok ∅ ∧
  read_param silent_device decode self param = Ok 0 ∧
  device_type silent_device decode self param = Ok 0 ∧
  write_params silent_device decode self parameters = Ok ∅ ∧
  write_param silent_device decode self param val = Raise KeyError.
Proof.
  intros Hinit Hid Hpwd Hparam Hval Hids Hm.
  assert (Hread : ∀ l, Forall (fun k => 0 <= k < 65536) l →
            read_params silent_device decode self l = Ok ∅).
  { intros l Hl. unfold read_params.
    destruct (sendable_block (foldl (fun params p => <[p := None]> params) ∅ l))
      as (block & raw & Hb & Hr).
    { intros k v Hkv. rewrite read_request_lookup in Hkv.
      case_decide as Hin; [|done]. injection Hkv as <-.
      split; [|done]. rewrite Forall_forall in Hl. by apply Hl. }
    rewrite Hb. run.
    by apply (silent_exchange _ _ _ _ _ decode FUNC.R block [Byte.x01] raw Hinit). }
  split_and!.
  - by apply Hread.
  - unfold read_param. rewrite Hread by (by constructor). done.
  - unfold device_type, read_param. rewrite Hread by (by constructor). done.
  - unfold write_params.
    destruct (sendable_block (Some <$> parameters)) as (block & raw & Hb & Hr).
    { intros k v Hkv. rewrite lookup_fmap in Hkv.
      destruct (parameters !! k) as [x|] eqn:E; [|done]. injection Hkv as <-.
      by destruct (Hm k x E). }
    rewrite Hb. run.
    by apply (silent_exchange _ _ _ _ _ decode FUNC.RW block [Byte.x03] raw Hinit).
  - rewrite write_param_eq.
    assert (Hdata : ∃ b, packet_to_bytes [Section param None; Section val None] = Ok b).
    { cbn [packet_to_bytes]. rewrite !to_bytes_auto by lia. run. eauto. }
    destruct Hdata as [b Hb].
    by rewrite (silent_exchange _ _ _ _ _ decode FUNC.RW _ [Byte.x03] b Hinit).
Qed.

Lemma no_answer_gives_empty_mapping_witness :
  read_params silent_device (fun _ _ => Raise ValueError) sample_client_pwd [0xB9; 0x0102]
  = Ok ∅.
Proof.
  destruct (no_answer_gives_empty_mapping [] DEFAULT_PORT DEFAULT_PWD [65; 66]
              sample_client_pwd (fun _ _ => Raise ValueError) 0xB9 1 [0xB9; 0x0102]
              {[ 1 := 7 ]}) as (H & _).
  - reflexivity.
  - repeat constructor; lia.
  - repeat constructor; lia.
  - lia.
  - lia.
  - repeat constructor; lia.
  - compute_done.
  - exact H.
Defined.

(** ** The checksum of a response is not a condition *)

(** X17: two answers that differ only in their last two bytes, the checksum
    field, give the same result: a response is accepted whatever checksum it
    carries. *)
Theorem response_accepted_whatever_checksum
    decode self function data (body check check' : pybytes) :
  length check = 2%nat →
  length check' = 2%nat →
  _communicate_block (fun _ => body ++ check) decode self function data
  = _communicate_block (fun _ => body ++ check') decode self function data.
Proof.
  intros Hc Hc'. unfold _communicate_block.
  destruct (_command self function data) as [command| |]; [|done..]. run.
  destruct (packet_to_bytes command) as [frame| |]; [|done..]. run.
  rewrite !length_app, Hc, Hc'.
  replace (length body + 2 - 2)%nat with (length body) by lia.
  rewrite !take_app_length.
  replace (length body + 2 =? 0)%nat with false by (symmetry; apply Nat.eqb_neq; lia).
  destruct (decode (_response self) body) as [response| |]; [|done..]. run.
  unfold checksum_warning.
  by destruct (expected_check_sum response).
Qed.

Lemma response_accepted_whatever_checksum_witness :
  _communicate_block (fun _ => [Byte.x01; Byte.x02] ++ [Byte.x00; Byte.x00])
    (fun template _ => Ok template) sample_client FUNC.R sample_data
  = _communicate_block (fun _ => [Byte.x01; Byte.x02] ++ [Byte.xff; Byte.xff])
      (fun template _ => Ok template) sample_client FUNC.R sample_data.
Proof. by apply response_accepted_whatever_checksum. Defined.

(** ** Strings as integers *)

Lemma int_from_bytes_cons x b :
  int_from_bytes (x :: b) = byte_int x * 256 ^ Z.of_nat (length b) + int_from_bytes b.
Proof.
  induction b as [|y b IH] using rev_ind.
  - cbn. lia.
  - rewrite app_comm_cons, !int_from_bytes_snoc, IH, length_app. cbn [length].
    replace (Z.of_nat (length b + 1)) with (Z.succ (Z.of_nat (length b))) by lia.
    rewrite Z.pow_succ_r by lia. lia.
Qed.

(** X18: for a string, [variable_to_bytes] gives the big-endian integer of
    its UTF-8 bytes: a non-negative integer from which, together with the
    number of bytes, the bytes are recovered. *)
Theorem string_variable_round_trip {F} (s : str) (b : pybytes) :
  utf8 s = Ok b →
  ∃ n, variable_to_bytes (F:=F) (VStr s) = Ok (inl n) ∧
       0 <= n < 256 ^ Z.of_nat (length b) ∧
       int_to_bytes n (Z.of_nat (length b)) = Ok b.
Proof.
  intros Hb. exists (int_from_bytes b). cbn [variable_to_bytes]. rewrite Hb.
  pose proof (int_from_bytes_range b) as Hr.
  split; [done|]. split; [lia|].
  unfold int_to_bytes.
  destruct (Z.ltb_spec (Z.of_nat (length b)) 0); [lia|].
  destruct (Z.leb_spec 0 (int_from_bytes b)); [|lia].
  destruct (Z.ltb_spec (int_from_bytes b) (256 ^ Z.of_nat (length b))); [|lia].
  cbn. by rewrite Nat2Z.id, be_digits_int_from_bytes.
Qed.

Lemma string_variable_round_trip_witness :
  ∃ n, variable_to_bytes (F:=Empty_set) (VStr [79; 78]) = Ok (inl n) ∧
       int_to_bytes n 2 = Ok [Byte.x4f; Byte.x4e].
Proof.
  destruct (string_variable_round_trip (F:=Empty_set) [79; 78] [Byte.x4f; Byte.x4e])
    as (n & Hn & _ & Hb); [reflexivity|].
  by exists n.
Defined.

(** X19: NUL characters at the start of a string do not count: the string
    and the string without them give the same integer, so the integer alone
    does not determine the string. *)
Theorem string_variable_drops_leading_nul {F} (s : str) :
  variable_to_bytes (F:=F) (VStr (0 :: s)) = variable_to_bytes (VStr s).
Proof.
  cbn [variable_to_bytes utf8]. change (utf8_char 0) with (Ok [Byte.x00] : outcome pybytes).
  run. destruct (utf8 s) as [b| |]; [|done..]. run.
  cbn [app]. rewrite int_from_bytes_cons. change (byte_int Byte.x00) with 0.
  by rewrite Z.mul_0_l, Z.add_0_l.
Qed.
